(* Verification of the grid-fill scheduler and tone synthesis of
   rgb_grid_screensaver.py (class RGBGridScreensaver).

   Modelling conventions:
   - Python ints are Z; Python floats are modelled as the exact rationals
     (Q) they denote, arithmetic on them being exact. The only real-valued
     part is the sine of generate_tone, modelled over Stdlib's reals.
   - Python list reads and writes go through [py_getitem]/[py_setitem],
     which return None where Python raises IndexError; a method that may
     raise returns an option.
   - The dict color_to_midi_map is a stdpp gmap keyed by strings. *)

From Stdlib Require Import ZArith QArith Qround Qminmax Qreals Lia Lqa Lra Reals.
From Stdlib Require Import String Ascii.
From stdpp Require Import base gmap strings list.

Open Scope Z_scope.

(** * Python built-ins *)
Module Py.

(** Strict comparison of rationals. *)
Definition Qltb (x y : Q) : bool := negb (Qle_bool y x).

(** [int(x)] on a float: truncation toward zero. *)
Definition py_int (x : Q) : Z :=
  if Qle_bool 0 x then Qfloor x else - Qfloor (- x).

(** [round(x)] on a float: nearest integer, ties to even. *)
Definition py_round (x : Q) : Z :=
  let fl := Qfloor x in
  let d := Qminus x (inject_Z fl) in
  if Qltb d (1 # 2) then fl
  else if Qltb (1 # 2) d then fl + 1
  else if Z.even fl then fl else fl + 1.

(** [range(n)] as a list of ints (empty when n <= 0). *)
Definition range (n : Z) : list Z := map Z.of_nat (seq 0 (Z.to_nat n)).

(** Normalised index of [l[i]]: negative indices count from the end;
    None when Python raises IndexError. *)
Definition py_index {A} (l : list A) (i : Z) : option nat :=
  let n := Z.of_nat (length l) in
  if (0 <=? i) && (i <? n) then Some (Z.to_nat i)
  else if (i <? 0) && (- n <=? i) then Some (Z.to_nat (n + i))
  else None.

(** [l[i]] *)
Definition py_getitem {A} (l : list A) (i : Z) : option A :=
  k ← py_index l i; l !! k.

(** [l[i] = v] *)
Definition py_setitem {A} (l : list A) (i : Z) (v : A) : option (list A) :=
  k ← py_index l i; Some (<[k := v]> l).

(** [for i in range(n): body(i)] over a value [a] the body updates;
    the loop stops at the first exception. *)
Definition py_for {A} (body : Z -> A -> option A) (n : Z) (a : A) : option A :=
  fold_left (fun acc i => acc ≫= body i) (range n) (Some a).

End Py.
Import Py.

(** * Colors and hex strings *)

Definition rgb : Type := Z * Z * Z.

Definition hex_digit (d : Z) : ascii :=
  match d with
  | 0 => "0" | 1 => "1" | 2 => "2" | 3 => "3" | 4 => "4" | 5 => "5"
  | 6 => "6" | 7 => "7" | 8 => "8" | 9 => "9" | 10 => "a" | 11 => "b"
  | 12 => "c" | 13 => "d" | 14 => "e" | _ => "f"
  end%char.

(** Lower-case hex digits of a natural number (no padding); [fuel]
    bounds the number of digits. *)
Fixpoint hex_digits (fuel : nat) (n : Z) (acc : string) : string :=
  match fuel with
  | O => acc
  | S fuel' =>
      let acc' := String (hex_digit (n mod 16)) acc in
      if n <? 16 then acc' else hex_digits fuel' (n / 16) acc'
  end.

(** [f"{x:02x}"]: lower-case hex, zero-padded to width 2; a negative
    number is printed with a leading '-' (already of width >= 2). *)
Definition fmt_02x (x : Z) : string :=
  let digits n := hex_digits (S (Z.to_nat (Z.log2 (Z.max n 1)))) n EmptyString in
  if x <? 0 then String "-" (digits (- x))
  else let s := digits x in
       if (String.length s <? 2)%nat then String "0" s else s.

(** rgb_to_hex *)
Definition rgb_to_hex (r g b : Z) : string :=
  String "#" (fmt_02x r ++ fmt_02x g ++ fmt_02x b).

Definition ascii_lower (c : ascii) : ascii :=
  let n := nat_of_ascii c in
  if (65 <=? n)%nat && (n <=? 90)%nat then ascii_of_nat (n + 32) else c.

(** [str.lower()] (on ASCII text). *)
Fixpoint str_lower (s : string) : string :=
  match s with
  | EmptyString => EmptyString
  | String c s' => String (ascii_lower c) (str_lower s')
  end.

(** * PitchMapper *)

(** self.color_to_midi_map *)
Definition color_to_midi_map : gmap string Z :=
  <["#000000" := 36]> (<["#0a0a0a" := 38]> (<["#1a1a1a" := 40]>
  (<["#ffffff" := 60]> ∅))).

(** [36 + int((r / 255) * 12)] and its two siblings. *)
Definition band_note (base v : Z) : Z :=
  base + py_int (Qmult (Qdiv (inject_Z v) (inject_Z 255)) (inject_Z 12)).

(** color_to_midi_note(hex_color, rgb) *)
Definition color_to_midi_note (hex_color : option string) (rgbv : option rgb) : Z :=
  let mapped :=
    match hex_color with
    | Some h => if String.eqb h "" then None else color_to_midi_map !! str_lower h
    | None => None
    end in
  match mapped with
  | Some n => n
  | None =>
      match rgbv with
      | Some (r, g, b) =>
          let red_note := band_note 36 r in
          let green_note := band_note 48 g in
          let blue_note := band_note 60 b in
          let avg_note := py_round (Qdiv (inject_Z (red_note + green_note + blue_note)) (inject_Z 3)) in
          Z.max 36 (Z.min 96 avg_note)
      | None => 60
      end
  end.

(** The note update_grid plays for a new color: it calls
    color_to_midi_note on rgb_to_hex of the color and the color itself. *)
Definition noteFor (c : rgb) : Z :=
  let '(r, g, b) := c in color_to_midi_note (Some (rgb_to_hex r g b)) (Some c).

(** * ToneSynthesizer *)

(** [int(x)] on a real: truncation toward zero. *)
Definition py_int_R (x : R) : Z :=
  if Rle_dec 0 x then Int_part x else - Int_part (- x).

(** The envelope of frame [i]:
<<
            envelope = 1.0
            if i < sample_rate * 0.01:  # Fade in
                envelope = i / (sample_rate * 0.01)
            elif i > frames - sample_rate * 0.01:  # Fade out
                envelope = (frames - i) / (sample_rate * 0.01)
>> *)
Definition envelope (sample_rate frames i : Z) : Q :=
  let fade := Qmult (inject_Z sample_rate) (1 # 100) in
  if Qltb (inject_Z i) fade then Qdiv (inject_Z i) fade
  else if Qltb (Qminus (inject_Z frames) fade) (inject_Z i) then
    Qdiv (inject_Z (frames - i)) fade
  else 1.

(** [max_sample = 2**(16 - 1) - 1] *)
Definition max_sample : Z := 2 ^ (16 - 1) - 1.

(** The sample of frame [i]:
    [int(wave * max_sample * envelope * 0.3)] with
    [wave = math.sin(2 * math.pi * frequency * i / sample_rate)]. *)
Definition tone_sample (frequency : R) (sample_rate frames i : Z) : Z :=
  let wave := sin (2 * PI * frequency * IZR i / IZR sample_rate) in
  py_int_R (wave * IZR max_sample * Q2R (envelope sample_rate frames i) * (3 / 10)).

(** generate_tone(frequency, duration, sample_rate): the (left, right)
    pairs of the int16 array [arr]; None where [np.zeros((frames, 2))]
    raises on a negative [frames]. *)
Definition generate_tone (frequency : R) (duration : Q) (sample_rate : Z)
    : option (list (Z * Z)) :=
  let frames := py_int (Qmult duration (inject_Z sample_rate)) in
  if frames <? 0 then None
  else Some (map (fun i => let sample := tone_sample frequency sample_rate frames i in
                           (sample, sample))
                 (range frames)).

(** * GridStore and FillScheduler: the attributes of RGBGridScreensaver *)

(** The fields of [self] the grid logic reads or writes. [current_sound]
    stands for the Sound last started by play_midi_note, recorded by
    its MIDI note. The render-only bookkeeping [previous_cell_colors]
    (written by draw_grid and reset by update_grid_size, read nowhere)
    is left out. *)
Record state := mkState {
  screen_width : Z;
  screen_height : Z;
  grid_cols : Z;
  grid_rows : Z;
  grid_data : list (option rgb);
  grid_index : Z;
  cell_size : Q;
  current_sound : option Z;
  last_update : Z
}.

(** [self.update_interval = 500]: milliseconds, never reassigned. *)
Definition update_interval : Z := 500.

Definition set_grid (cols rows : Z) (cs : Q) (data : list (option rgb)) (idx : Z)
    (s : state) : state :=
  mkState (screen_width s) (screen_height s) cols rows data idx cs
    (current_sound s) (last_update s).

Definition set_data (data : list (option rgb)) (idx : Z) (s : state) : state :=
  set_grid (grid_cols s) (grid_rows s) (cell_size s) data idx s.

Definition set_sound (snd : option Z) (s : state) : state :=
  mkState (screen_width s) (screen_height s) (grid_cols s) (grid_rows s)
    (grid_data s) (grid_index s) (cell_size s) snd (last_update s).

Definition set_last_update (t : Z) (s : state) : state :=
  mkState (screen_width s) (screen_height s) (grid_cols s) (grid_rows s)
    (grid_data s) (grid_index s) (cell_size s) (current_sound s) t.

Definition set_screen (w h : Z) (s : state) : state :=
  mkState w h (grid_cols s) (grid_rows s)
    (grid_data s) (grid_index s) (cell_size s) (current_sound s) (last_update s).

(** The data-resizing part of update_grid_size, once [total_cells] is
    known:
<<
        if len(self.grid_data) != total_cells:
            old_data = self.grid_data.copy()
            self.grid_data = [None] * total_cells
            if old_data:
                min_cells = min(len(old_data), total_cells)
                for i in range(min_cells):
                    self.grid_data[i] = old_data[i]
            if self.grid_index >= total_cells:
                self.grid_index = total_cells
>> *)
Definition resize_data (total_cells : Z) (old_data : list (option rgb)) (idx : Z)
    : option (list (option rgb) * Z) :=
  if negb (Z.of_nat (length old_data) =? total_cells) then
    let fresh := repeat None (Z.to_nat total_cells) in
    data ← (match old_data with
            | [] => Some fresh
            | _ =>
                let min_cells := Z.min (Z.of_nat (length old_data)) total_cells in
                py_for (fun i d => v ← py_getitem old_data i; py_setitem d i v)
                  min_cells fresh
            end);
    Some (data, if total_cells <=? idx then total_cells else idx)
  else Some (old_data, idx).

(** update_grid_size *)
Definition update_grid_size (s : state) : option state :=
  let width := screen_width s in
  let height := screen_height s in
  let min_cell_size := 20 in
  let gap := 2 in
  let target_cell_size :=
    Qmax (inject_Z min_cell_size) (Qdiv (inject_Z (Z.min width height)) (inject_Z 30)) in
  let cols0 := py_int (Qdiv (inject_Z (width + gap)) (Qplus target_cell_size (inject_Z gap))) in
  let rows0 := py_int (Qdiv (inject_Z (height + gap)) (Qplus target_cell_size (inject_Z gap))) in
  let cols := Z.max 10 cols0 in
  let rows := Z.max 10 rows0 in
  let cell_width := Qdiv (inject_Z (width - (cols - 1) * gap)) (inject_Z cols) in
  let cell_height := Qdiv (inject_Z (height - (rows - 1) * gap)) (inject_Z rows) in
  let total_cells := cols * rows in
  '(data, idx) ← resize_data total_cells (grid_data s) (grid_index s);
  Some (set_grid cols rows (Qmin cell_width cell_height) data idx s).

(** A display-size change: new screen dimensions, then update_grid_size. *)
Definition resize (w h : Z) (s : state) : option state :=
  update_grid_size (set_screen w h s).

(** __init__: the attributes before [self.update_grid_size()], then that
    call; [last_update] is 0. *)
Definition init (w h : Z) : option state :=
  update_grid_size (mkState w h 0 0 [] 0 0 None 0).

(** The shift of a full grid:
<<
            for i in range(total_cells - 1):
                self.grid_data[i] = self.grid_data[i + 1]
>> *)
Definition shift_left (total_cells : Z) (data : list (option rgb)) : option (list (option rgb)) :=
  py_for (fun i d => v ← py_getitem d (i + 1); py_setitem d i v) (total_cells - 1) data.

(** update_grid, with the color [generate_random_rgb()] returned passed
    in as [c]. play_midi_note stops the current Sound and starts the
    tone of the new note (the velocity update_grid computes is not used
    by play_midi_note). *)
Definition update_grid (c : rgb) (s : state) : option state :=
  let '(r, g, b) := c in
  let hex_color := rgb_to_hex r g b in
  let midi_note := color_to_midi_note (Some hex_color) (Some c) in
  let s := set_sound (Some midi_note) s in
  let total_cells := grid_cols s * grid_rows s in
  if total_cells <=? grid_index s then
    d ← shift_left total_cells (grid_data s);
    d' ← py_setitem d (total_cells - 1) (Some c);
    Some (set_data d' (grid_index s) s)
  else
    d' ← py_setitem (grid_data s) (grid_index s) (Some c);
    Some (set_data d' (grid_index s + 1) s).

(** One iteration of the loop of run, as far as the grid goes: the
    clock reads [current_time]; [c] is the color update_grid would draw. *)
Definition tick (current_time : Z) (c : rgb) (s : state) : option state :=
  if update_interval <=? current_time - last_update s then
    s' ← update_grid c s;
    Some (set_last_update current_time s')
  else Some s.

(** A run: the ticks in order; returns the final state and the times at
    which update_grid was triggered. *)
Fixpoint run_ticks (ticks : list (Z * rgb)) (s : state) : option (state * list Z) :=
  match ticks with
  | [] => Some (s, [])
  | (t, c) :: rest =>
      s' ← tick t c s;
      '(s'', ts) ← run_ticks rest s';
      Some (s'', if update_interval <=? t - last_update s then t :: ts else ts)
  end.

(** * Properties stated by the specification *)

(** The tone's envelope as the specification describes it, over a buffer
    of [F] frames at rate [r], with window [w = 0.01 * r]: the fade-in
    formula over the first [w] frames, the fade-out formula over the
    last [w] frames, 1.0 in between, increasing over the first window
    and decreasing over the last. *)
Definition envelope_as_specified (r F : Z) : Prop :=
  let w := Qmult (inject_Z r) (1 # 100) in
  (forall i, 0 <= i < F ->
     (Qlt (inject_Z i) w -> Qeq (envelope r F i) (Qdiv (inject_Z i) w)) /\
     (Qle (Qminus (inject_Z F) w) (inject_Z i) ->
        Qeq (envelope r F i) (Qdiv (inject_Z (F - i)) w)) /\
     (Qle w (inject_Z i) -> Qlt (inject_Z i) (Qminus (inject_Z F) w) ->
        Qeq (envelope r F i) 1)) /\
  (forall i j, 0 <= i <= j -> Qlt (inject_Z j) w ->
     Qle (envelope r F i) (envelope r F j)) /\
  (forall i j, Qle (Qminus (inject_Z F) w) (inject_Z i) -> i <= j < F ->
     Qle (envelope r F j) (envelope r F i)).

(** The grid-store invariant: the cell list has [grid_cols * grid_rows]
    entries and the cursor lies in [0, grid_cols * grid_rows]. *)
Definition grid_inv (s : state) : Prop :=
  Z.of_nat (length (grid_data s)) = grid_cols s * grid_rows s /\
  0 <= grid_index s <= grid_cols s * grid_rows s.

(** The states a run of the program can be in: after __init__, and
    after any update_grid, loop iteration or display-size change. *)
Inductive reachable : state -> Prop :=
  | reach_init w h s : init w h = Some s -> reachable s
  | reach_update c s s' : reachable s -> update_grid c s = Some s' -> reachable s'
  | reach_tick t c s s' : reachable s -> tick t c s = Some s' -> reachable s'
  | reach_resize w h s s' : reachable s -> resize w h s = Some s' -> reachable s'.

(** Consecutive entries of a list of times are [update_interval] apart
    or more. *)
Fixpoint spaced (ts : list Z) : Prop :=
  match ts with
  | a :: ((b :: _) as rest) => update_interval <= b - a /\ spaced rest
  | _ => True
  end.

(** * Other methods of RGBGridScreensaver *)

(** midi_note_to_frequency: [440 * (2 ** ((note - 69) / 12))]. *)
Definition midi_note_to_frequency (note : Z) : R :=
  440 * Rpower 2 (IZR (note - 69) / 12).

(** get_text_color: black text on colors brighter than 128, white
    otherwise, with [brightness = (r * 299 + g * 587 + b * 114) / 1000]. *)
Definition get_text_color (c : rgb) : rgb :=
  let '(r, g, b) := c in
  let brightness := Qdiv (inject_Z (r * 299 + g * 587 + b * 114)) (inject_Z 1000) in
  if Qltb (inject_Z 128) brightness then (0, 0, 0) else (255, 255, 255).

(** The pygame events run looks at; any other event is [OTHER_EVENT]. *)
Inductive event : Type :=
  | QUIT
  | KEYDOWN (key : Z)
  | MOUSEBUTTONDOWN
  | OTHER_EVENT.

(** pygame.K_ESCAPE *)
Definition K_ESCAPE : Z := 27.

(** The body of run's [for event in pygame.event.get()] loop, on the
    [running] flag. *)
Definition handle_event (running : bool) (e : event) : bool :=
  match e with
  | QUIT => false
  | KEYDOWN key => if key =? K_ESCAPE then false else running
  | MOUSEBUTTONDOWN => false
  | OTHER_EVENT => running
  end.

Definition handle_events (events : list event) (running : bool) : bool :=
  fold_left handle_event events running.

(** One iteration of run's [while running] loop: the events, then the
    timed grid update ([draw_grid] and the frame-rate wait only draw). *)
Definition run_iteration (current_time : Z) (events : list event) (c : rgb)
    (running : bool) (s : state) : option (bool * state) :=
  let running' := handle_events events running in
  s' ← tick current_time c s;
  Some (running', s').

(** Successive update_grid calls with the colors [cs], in order. *)
Fixpoint update_all (cs : list rgb) (s : state) : option state :=
  match cs with
  | [] => Some s
  | c :: cs' => s' ← update_grid c s; update_all cs' s'
  end.

(** The last [n] elements of a list (all of it when shorter). *)
Definition lastn {A} (n : nat) (l : list A) : list A := drop (length l - n) l.

(** The two lower-case hex digits of a byte. *)
Definition hex_byte (v : Z) : string :=
  String (hex_digit (v / 16)) (String (hex_digit (v mod 16)) EmptyString).

(** Every [lo + k] with [0 <= k < n] satisfies [f]. *)
Definition check_all (f : Z -> bool) (lo n : Z) : bool :=
  forallb (fun k => f (lo + k)) (range n).

(** The top-left corner draw_grid gives cell [i]:
<<
            row = i // self.grid_cols
            col = i % self.grid_cols
            x = col * (self.cell_size + gap)
            y = row * (self.cell_size + gap)
>>
    with [gap = 2]; the cell is the square of side [cell_size] there. *)
Definition cell_origin (s : state) (i : Z) : Q * Q :=
  let gap := 2 in
  let row := i / grid_cols s in
  let col := i mod grid_cols s in
  (Qmult (inject_Z col) (Qplus (cell_size s) (inject_Z gap)),
   Qmult (inject_Z row) (Qplus (cell_size s) (inject_Z gap))).

(** A full 2x2 grid. *)
Definition small : state := mkState 0 0 2 2 [Some (1,1,1); Some (2,2,2); Some (3,3,3); Some (4,4,4)] 4 0 None 0.

(** * Tests *)

Example noteFor_ex1 : noteFor (0, 0, 0) = 36. Proof. vm_compute. reflexivity. Qed.
Example hex_ex1 : rgb_to_hex 10 255 300 = "#0aff12c"%string. Proof. vm_compute. reflexivity. Qed.
Example noteFor_ex2 : noteFor (255, 0, 0) = 52. Proof. vm_compute. reflexivity. Qed.
Example init_ex : option_map (fun s => (grid_cols s, grid_rows s, length (grid_data s))) (init 1920 1080)
  = Some (50, 28, 1400%nat). Proof. vm_compute. reflexivity. Qed.
Example upd_ex : option_map grid_data (update_grid (5,5,5) small)
  = Some [Some (2,2,2); Some (3,3,3); Some (4,4,4); Some (5,5,5)]. Proof. vm_compute. reflexivity. Qed.
Example envelope_ex : (envelope 44100 8820 0 == 0 /\ envelope 44100 8820 441 == 1
  /\ envelope 44100 8820 8819 == 1 # 441)%Q. Proof. vm_compute. repeat split; reflexivity. Qed.

(** * Lemmas on the Python built-ins *)

Lemma Qltb_true (x y : Q) : Qltb x y = true -> (x < y)%Q.
Proof.
  unfold Qltb. intros H. apply Qnot_le_lt. intros Hle.
  apply Qle_bool_iff in Hle. rewrite Hle in H. discriminate.
Qed.

Lemma Qltb_false (x y : Q) : Qltb x y = false -> (y <= x)%Q.
Proof.
  unfold Qltb. intros H. apply Qle_bool_iff. destruct (Qle_bool y x); easy.
Qed.

Lemma in_range (i n : Z) : In i (range n) -> 0 <= i < n.
Proof.
  unfold range. intros Hi. apply in_map_iff in Hi as [k [<- Hk]].
  apply in_seq in Hk. lia.
Qed.

Lemma length_range (n : Z) : length (range n) = Z.to_nat n.
Proof. unfold range. rewrite length_map, length_seq. reflexivity. Qed.

(** [int(x)] of a real strictly within [-(M+1), M+1] lies in [-M, M]. *)
Lemma py_int_R_bound (x : R) (M : Z) :
  (- (IZR M + 1) < x < IZR M + 1)%R -> - M <= py_int_R x <= M.
Proof.
  intros [Hlo Hhi]. unfold py_int_R.
  assert (Hfloor : forall y, (0 <= y < IZR M + 1)%R -> 0 <= Int_part y <= M).
  { intros y [Hy0 Hy1]. destruct (base_Int_part y) as [Hb1 Hb2]. split.
    - assert (-1 < Int_part y); [apply lt_IZR; lra | lia].
    - assert (Int_part y < M + 1); [apply lt_IZR; rewrite plus_IZR; lra | lia]. }
  destruct (Rle_dec 0 x) as [Hx | Hx].
  - specialize (Hfloor x ltac:(lra)). lia.
  - specialize (Hfloor (- x)%R ltac:(lra)). lia.
Qed.

(** * ToneSynthesizer lemmas *)

Lemma envelope_range (r F i : Z) : 0 <= i < F -> (0 <= envelope r F i <= 1)%Q.
Proof.
  intros [Hi HF]. unfold envelope.
  set (fade := Qmult (inject_Z r) (1 # 100)).
  assert (Hi' : (0 <= inject_Z i)%Q) by (change 0%Q with (inject_Z 0); rewrite <- Zle_Qle; lia).
  assert (HF' : (inject_Z i + 1 <= inject_Z F)%Q)
    by (change 1%Q with (inject_Z 1); rewrite <- inject_Z_plus, <- Zle_Qle; lia).
  destruct (Qltb (inject_Z i) fade) eqn:E1.
  - apply Qltb_true in E1.
    assert (Hf : (0 < fade)%Q) by Lqa.lra.
    split.
    + apply Qle_shift_div_l; [exact Hf | Lqa.lra].
    + apply Qle_shift_div_r; [exact Hf | Lqa.lra].
  - apply Qltb_false in E1.
    destruct (Qltb (Qminus (inject_Z F) fade) (inject_Z i)) eqn:E2.
    + apply Qltb_true in E2.
      assert (Hf : (0 < fade)%Q) by Lqa.lra.
      assert (Hd : (inject_Z (F - i) == inject_Z F - inject_Z i)%Q).
      { unfold Z.sub, Qminus. rewrite inject_Z_plus, inject_Z_opp. reflexivity. }
      split.
      * apply Qle_shift_div_l; [exact Hf | rewrite Hd; Lqa.lra].
      * apply Qle_shift_div_r; [exact Hf | rewrite Hd; Lqa.lra].
    + split; discriminate.
Qed.

Lemma tone_sample_bound (f : R) (r F i : Z) :
  0 <= i < F -> - 9830 <= tone_sample f r F i <= 9830.
Proof.
  intros Hi. unfold tone_sample.
  match goal with |- context [py_int_R ?x] =>
    cut (- (IZR 9830 + 1) < x < IZR 9830 + 1)%R;
    [intros Hx; apply py_int_R_bound in Hx; lia |] end.
  destruct (envelope_range r F i Hi) as [He0 He1].
  apply Qle_Rle in He0, He1.
  assert (Hq0 : Q2R 0 = 0%R) by (unfold Q2R; simpl; lra).
  assert (Hq1 : Q2R 1 = 1%R) by (unfold Q2R; simpl; lra).
  rewrite Hq0 in He0. rewrite Hq1 in He1.
  set (e := Q2R (envelope r F i)) in *.
  set (w := sin _).
  assert (Hw : (-1 <= w <= 1)%R) by apply SIN_bound.
  assert (Hwe : (-1 <= w * e <= 1)%R) by nra.
  change (IZR max_sample) with (IZR 32767).
  replace (w * IZR 32767 * e * (3 / 10))%R with ((w * e) * (98301 / 10))%R by lra.
  lra.
Qed.

Lemma generate_tone_length_eq (f : R) (d : Q) (r : Z) :
  match generate_tone f d r with
  | Some buf => length buf = Z.to_nat (py_int (Qmult d (inject_Z r))) /\
                0 <= py_int (Qmult d (inject_Z r))
  | None => py_int (Qmult d (inject_Z r)) < 0
  end.
Proof.
  unfold generate_tone.
  destruct (py_int (Qmult d (inject_Z r)) <? 0) eqn:E.
  - apply Z.ltb_lt in E. exact E.
  - apply Z.ltb_ge in E. rewrite length_map, length_range. split; [reflexivity | lia].
Qed.

Lemma Qltb_true_intro (x y : Q) : (x < y)%Q -> Qltb x y = true.
Proof.
  intros H. unfold Qltb. destruct (Qle_bool y x) eqn:E; [|reflexivity].
  apply Qle_bool_iff in E. exfalso. exact (Qlt_not_le _ _ H E).
Qed.

Lemma Qltb_false_intro (x y : Q) : (y <= x)%Q -> Qltb x y = false.
Proof. intros H. unfold Qltb. apply Qle_bool_iff in H. rewrite H. reflexivity. Qed.

Lemma inject_Z_sub (a b : Z) : (inject_Z (a - b) == inject_Z a - inject_Z b)%Q.
Proof. unfold Z.sub, Qminus. rewrite inject_Z_plus, inject_Z_opp. reflexivity. Qed.

Lemma inject_Z_le (a b : Z) : a <= b -> (inject_Z a <= inject_Z b)%Q.
Proof. rewrite Zle_Qle. easy. Qed.

Lemma inject_Z_lt (a b : Z) : a < b -> (inject_Z a < inject_Z b)%Q.
Proof. rewrite Zlt_Qlt. easy. Qed.

Lemma inject_Z_window (r F : Z) : r <= 50 * F -> (inject_Z r <= 50 * inject_Z F)%Q.
Proof.
  intros H. apply inject_Z_le in H. rewrite inject_Z_mult in H. exact H.
Qed.

(** The envelope, case by case, when the two windows do not overlap. *)
Lemma envelope_cases (r F i : Z) :
  0 < r -> r <= 50 * F -> 0 <= i < F ->
  let w := Qmult (inject_Z r) (1 # 100) in
  ((inject_Z i < w)%Q -> (envelope r F i == inject_Z i / w)%Q) /\
  ((inject_Z F - w <= inject_Z i)%Q -> (envelope r F i == inject_Z (F - i) / w)%Q) /\
  ((w <= inject_Z i)%Q -> (inject_Z i < inject_Z F - w)%Q -> (envelope r F i == 1)%Q).
Proof.
  intros Hr HF [Hi0 HiF] w.
  pose proof (inject_Z_lt 0 r Hr) as Hr'. change (inject_Z 0) with 0%Q in Hr'.
  pose proof (inject_Z_window r F HF) as HF'.
  pose proof (inject_Z_lt i F HiF) as HiF'.
  assert (Hw : (0 < w)%Q) by (unfold w; Lqa.lra).
  assert (Hw2 : (w + w <= inject_Z F)%Q) by (unfold w; Lqa.lra).
  unfold envelope; fold w. split; [|split].
  - intros Hlt. rewrite (Qltb_true_intro _ _ Hlt). reflexivity.
  - intros Hge. rewrite (Qltb_false_intro (inject_Z i) w) by Lqa.lra.
    destruct (Qltb (Qminus (inject_Z F) w) (inject_Z i)) eqn:E; [reflexivity|].
    apply Qltb_false in E.
    assert (Hd : (inject_Z (F - i) == w)%Q) by (rewrite inject_Z_sub; Lqa.lra).
    unfold Qdiv. rewrite Hd, Qmult_inv_r; [reflexivity|].
    intros H0. rewrite H0 in Hw. discriminate.
  - intros Hge Hlt. rewrite (Qltb_false_intro (inject_Z i) w) by exact Hge.
    rewrite (Qltb_false_intro (Qminus (inject_Z F) w) (inject_Z i)) by Lqa.lra.
    reflexivity.
Qed.

(** ** C2 *)

(** C2 (corrected): generate_tone computes [frames = int(duration *
    sample_rate)], the product truncated toward zero, not rounded: the
    buffer has that many frames, and a negative count is refused. *)
Theorem generate_tone_frames (f : R) (d : Q) (r : Z) :
  match generate_tone f d r with
  | Some buf => length buf = Z.to_nat (py_int (Qmult d (inject_Z r))) /\
                0 <= py_int (Qmult d (inject_Z r))
  | None => py_int (Qmult d (inject_Z r)) < 0
  end.
Proof. exact (generate_tone_length_eq f d r). Qed.

(** C2, counterexample: with duration 0.875 and rate 4 (product 3.5,
    exact in floating point) the buffer has 3 frames, while round(3.5)
    is 4. *)
Lemma generate_tone_frames_not_rounded :
  ~ (forall (f : R) (d : Q) (r : Z) (buf : list (Z * Z)),
       generate_tone f d r = Some buf ->
       Z.of_nat (length buf) = py_round (Qmult d (inject_Z r))).
Proof.
  intros H.
  pose proof (generate_tone_length_eq 440 (7 # 8) 4) as L.
  destruct (generate_tone 440 (7 # 8) 4) as [buf|] eqn:E.
  - specialize (H _ _ _ _ E). destruct L as [L _].
    rewrite L in H. vm_compute in H. discriminate.
  - vm_compute in L. discriminate.
Qed.

(** ** C8 *)

(** C8 (corrected): when the buffer holds at least two fade windows
    ([2 * 0.01 * r <= F], i.e. [r <= 50 * F], with [r > 0]) the envelope
    is [i / w] on the first [w = 0.01 * r] frames, [(F - i) / w] on the
    last [w] frames, 1.0 in between, increasing over the first window
    and decreasing over the last. *)
Theorem envelope_disjoint_windows (r F : Z) (Hr : 0 < r) (HF : r <= 50 * F) :
  envelope_as_specified r F.
Proof.
  unfold envelope_as_specified.
  set (w := Qmult (inject_Z r) (1 # 100)).
  assert (Hw : (0 < w)%Q) by (pose proof (inject_Z_lt 0 r Hr) as Hr'; change (inject_Z 0) with 0%Q in Hr'; unfold w; Lqa.lra).
  assert (Hinv : (0 <= / w)%Q) by (apply Qinv_le_0_compat; Lqa.lra).
  split; [|split].
  - intros i Hi. exact (envelope_cases r F i Hr HF Hi).
  - intros i j Hij Hj.
    pose proof (inject_Z_le i j (proj2 Hij)) as Hij'.
    assert (Hj0 : 0 <= j < F).
    { split; [lia|]. rewrite Zlt_Qlt.
      pose proof (inject_Z_window r F HF) as HF'.
      unfold w in *. Lqa.lra. }
    destruct (envelope_cases r F j Hr HF Hj0) as [Hj1 _].
    destruct (envelope_cases r F i Hr HF ltac:(lia)) as [Hi1 _].
    rewrite (Hj1 Hj), (Hi1 ltac:(unfold w in *; Lqa.lra)).
    unfold Qdiv. apply Qmult_le_compat_r; assumption.
  - intros i j Hi Hij.
    pose proof (inject_Z_le i j (proj1 Hij)) as Hij'.
    assert (Hi0 : 0 <= i).
    { rewrite Zle_Qle. change (inject_Z 0) with 0%Q.
      pose proof (inject_Z_window r F HF) as HF'.
      unfold w in *. Lqa.lra. }
    destruct (envelope_cases r F j Hr HF ltac:(lia)) as [_ [Hj2 _]].
    destruct (envelope_cases r F i Hr HF ltac:(lia)) as [_ [Hi2 _]].
    rewrite (Hj2 ltac:(unfold w in *; Lqa.lra)), (Hi2 Hi).
    unfold Qdiv. apply Qmult_le_compat_r; [|assumption].
    rewrite !inject_Z_sub. Lqa.lra.
Qed.

Lemma envelope_disjoint_windows_witness :
  (0 < 44100 /\ 44100 <= 50 * 8820) /\ envelope_as_specified 44100 8820.
Proof.
  split; [lia|]. apply (envelope_disjoint_windows 44100 8820); lia.
Defined.

(** C8, counterexample: a 100-frame buffer at 44100 Hz is shorter than
    one fade window; frame 10 lies in both the first and the last 441
    frames, and the code gives it the fade-in value 10/441, not the
    fade-out value 90/441. *)
Lemma envelope_overlapping_windows :
  ~ envelope_as_specified 44100 100.
Proof.
  intros [H _].
  destruct (H 10 ltac:(lia)) as [Hin [Hout _]].
  assert (E1 : (envelope 44100 100 10 == inject_Z 10 / (inject_Z 44100 * (1 # 100)))%Q)
    by (apply Hin; vm_compute; reflexivity).
  assert (E2 : (envelope 44100 100 10 == inject_Z (100 - 10) / (inject_Z 44100 * (1 # 100)))%Q)
    by (apply Hout; vm_compute; discriminate).
  pose proof (Qeq_trans _ _ _ (Qeq_sym _ _ E1) E2) as E.
  vm_compute in E. discriminate.
Qed.

(** ** C10 *)

(** C10: every sample of a generated tone, left and right, lies in
    [-9830, 9830] ([0.3 * (2^15 - 1)] truncated), well inside int16. *)
Theorem generate_tone_samples_bounded (f : R) (d : Q) (r : Z) :
  match generate_tone f d r with
  | Some buf =>
      Forall (fun lr => -9830 <= fst lr <= 9830 /\ -9830 <= snd lr <= 9830) buf
  | None => True
  end.
Proof.
  unfold generate_tone.
  destruct (py_int (Qmult d (inject_Z r)) <? 0); [exact I|].
  apply List.Forall_forall. intros lr Hlr.
  apply in_map_iff in Hlr as [i [<- Hi]]. apply in_range in Hi.
  pose proof (tone_sample_bound f r (py_int (Qmult d (inject_Z r))) i Hi).
  simpl. lia.
Qed.

(** * PitchMapper lemmas *)

Lemma color_to_midi_map_values (k : string) (n : Z) :
  color_to_midi_map !! k = Some n -> n = 36 \/ n = 38 \/ n = 40 \/ n = 60.
Proof.
  unfold color_to_midi_map.
  rewrite !lookup_insert_Some, lookup_empty.
  intros H. destruct H as [[_ <-] | [_ [[_ <-] | [_ [[_ <-] | [_ [[_ <-] | [_ H]]]]]]]];
    [tauto | tauto | tauto | tauto | discriminate].
Qed.

(** ** C3 *)

(** C3 (code_bug): the red band's offset [int((r / 255) * 12)] reaches
    12 at [r = 255], so the red note is 48 (C3), outside the band
    C2-B2 (36..47) the source comment gives; noteFor (255, 0, 0) takes
    the generative path. *)
Theorem red_band_full_scale :
  band_note 36 255 = 48 /\ band_note 36 255 - 36 = 12 /\
  color_to_midi_map !! str_lower (rgb_to_hex 255 0 0) = None.
Proof. vm_compute. repeat split. Qed.

(** ** C4 *)

(** C4: for every color, noteFor gives a note in [36, 96]. *)
Theorem noteFor_range (c : rgb) : 36 <= noteFor c <= 96.
Proof.
  destruct c as [[r g] b]. unfold noteFor, color_to_midi_note.
  destruct (String.eqb (rgb_to_hex r g b) "").
  - lia.
  - destruct (color_to_midi_map !! str_lower (rgb_to_hex r g b)) as [n|] eqn:E.
    + apply color_to_midi_map_values in E. lia.
    + lia.
Qed.

(** ** C5 *)

(** C5: the four reserved colors hit color_to_midi_map and get their
    fixed notes: black 36, (10,10,10) 38, (26,26,26) 40, white 60. *)
Theorem noteFor_reserved :
  color_to_midi_map !! str_lower (rgb_to_hex 0 0 0) = Some 36 /\ noteFor (0, 0, 0) = 36 /\
  color_to_midi_map !! str_lower (rgb_to_hex 10 10 10) = Some 38 /\ noteFor (10, 10, 10) = 38 /\
  color_to_midi_map !! str_lower (rgb_to_hex 26 26 26) = Some 40 /\ noteFor (26, 26, 26) = 40 /\
  color_to_midi_map !! str_lower (rgb_to_hex 255 255 255) = Some 60 /\
  noteFor (255, 255, 255) = 60.
Proof. vm_compute. repeat split. Qed.

(** * GridStore lemmas *)

Section PyLists.
Context {A : Type}.

Lemma py_setitem_length (l : list A) (i : Z) (v : A) (l' : list A) : py_setitem l i v = Some l' -> length l' = length l.
Proof.
  unfold py_setitem. destruct (py_index l i); simpl; [|discriminate].
  intros H; injection H as <-. apply length_insert.
Qed.

Lemma py_index_in_range (l : list A) (i : Z) : 0 <= i < Z.of_nat (length l) -> py_index l i = Some (Z.to_nat i).
Proof.
  intros Hi. unfold py_index.
  replace ((0 <=? i) && (i <? Z.of_nat (length l))) with true; [reflexivity|].
  symmetry. apply andb_true_intro. split; [apply Z.leb_le | apply Z.ltb_lt]; lia.
Qed.

Lemma py_setitem_in_range (l : list A) (i : Z) (v : A) :
  0 <= i < Z.of_nat (length l) -> py_setitem l i v = Some (<[Z.to_nat i := v]> l).
Proof. intros Hi. unfold py_setitem. rewrite py_index_in_range by exact Hi. reflexivity. Qed.

Lemma py_getitem_in_range (l : list A) (i : Z) :
  0 <= i < Z.of_nat (length l) -> py_getitem l i = l !! Z.to_nat i.
Proof. intros Hi. unfold py_getitem. rewrite py_index_in_range by exact Hi. reflexivity. Qed.

Lemma range_succ (k : nat) : range (Z.of_nat (S k)) = range (Z.of_nat k) ++ [Z.of_nat k].
Proof. unfold range. rewrite !Nat2Z.id, seq_S, map_app. reflexivity. Qed.

Lemma py_for_succ {B} (body : Z -> B -> option B) (k : nat) (a : B) :
  py_for body (Z.of_nat (S k)) a = py_for body (Z.of_nat k) a ≫= body (Z.of_nat k).
Proof. unfold py_for. rewrite range_succ, fold_left_app. reflexivity. Qed.


(** A property every loop iteration keeps holds after the loop. *)
Lemma py_for_inv {B} (P : B -> Prop) (body : Z -> B -> option B) (n : Z) (a a' : B) :
  (forall i x y, P x -> body i x = Some y -> P y) ->
  P a -> py_for body n a = Some a' -> P a'.
Proof.
  intros Hbody. unfold py_for. generalize (range n) as l.
  assert (Hgen : forall (l : list Z) (acc : option B), (forall x, acc = Some x -> P x) ->
            fold_left (fun acc i => acc ≫= body i) l acc = Some a' -> P a').
  { induction l as [|i l IH]; simpl; intros acc Hacc H.
    - exact (Hacc a' H).
    - apply (IH (acc ≫= body i)); [|exact H].
      intros y Hy. destruct acc as [x|]; simpl in Hy; [|discriminate].
      exact (Hbody i x y (Hacc x eq_refl) Hy). }
  intros l Ha. apply (Hgen l (Some a)). intros x Hx. injection Hx as <-. exact Ha.
Qed.

(** After [k] iterations of the shift loop, the first [k] cells hold
    cells [1..k] and the rest are untouched. *)
Lemma shift_loop (d : list A) (k : nat) :
  (k < length d)%nat ->
  py_for (fun i d' => v ← py_getitem d' (i + 1); py_setitem d' i v) (Z.of_nat k) d =
  Some (take k (drop 1 d) ++ drop k d).
Proof.
  induction k as [|k IH]; intros Hk.
  - reflexivity.
  - rewrite py_for_succ, IH by lia. simpl.
    set (d' := take k (drop 1 d) ++ drop k d).
    assert (Hlen : length d' = length d).
    { unfold d'. rewrite length_app, length_take, !length_drop. lia. }
    destruct (lookup_lt_is_Some_2 d (S k) ltac:(lia)) as [x Hx].
    destruct (lookup_lt_is_Some_2 d k ltac:(lia)) as [y Hy].
    assert (Htk : length (take k (drop 1 d)) = k) by (rewrite length_take, length_drop; lia).
    rewrite py_getitem_in_range by lia.
    replace (Z.to_nat (Z.of_nat k + 1)) with (S k) by lia.
    assert (Hget : d' !! S k = Some x).
    { unfold d'. rewrite lookup_app_r by lia. rewrite lookup_drop, Htk.
      replace (k + (S k - k))%nat with (S k) by lia. exact Hx. }
    rewrite Hget. simpl.
    rewrite py_setitem_in_range by lia. rewrite Nat2Z.id. f_equal.
    unfold d'. rewrite insert_app_r_alt by lia. rewrite Htk, Nat.sub_diag.
    rewrite (drop_S d y k Hy). simpl.
    rewrite (take_S_r (drop 1 d) k x) by (rewrite lookup_drop; exact Hx).
    rewrite <- app_assoc. reflexivity.
Qed.

(** After [k] iterations of update_grid_size's copy loop, the first [k]
    cells are those of [old_data] and the rest those of the fresh list. *)
Lemma copy_loop (old fresh : list A) (k : nat) :
  (k <= length old)%nat -> (k <= length fresh)%nat ->
  py_for (fun i d => v ← py_getitem old i; py_setitem d i v) (Z.of_nat k) fresh =
  Some (take k old ++ drop k fresh).
Proof.
  induction k as [|k IH]; intros Hko Hkf.
  - reflexivity.
  - rewrite py_for_succ, IH by lia. simpl.
    destruct (lookup_lt_is_Some_2 old k ltac:(lia)) as [x Hx].
    destruct (lookup_lt_is_Some_2 fresh k ltac:(lia)) as [y Hy].
    assert (Htk : length (take k old) = k) by (rewrite length_take; lia).
    rewrite py_getitem_in_range by lia. rewrite Nat2Z.id, Hx. simpl.
    rewrite py_setitem_in_range
      by (rewrite length_app, Htk, length_drop; lia).
    rewrite Nat2Z.id. f_equal.
    rewrite insert_app_r_alt by lia. rewrite Htk, Nat.sub_diag.
    rewrite (drop_S fresh y k Hy). simpl.
    rewrite (take_S_r old k x Hx). rewrite <- app_assoc. reflexivity.
Qed.

End PyLists.

Lemma resize_data_result (T : Z) (old : list (option rgb)) (idx : Z) :
  0 <= T ->
  exists data idx', resize_data T old idx = Some (data, idx') /\
    (Z.of_nat (length old) = T -> data = old /\ idx' = idx) /\
    (Z.of_nat (length old) <> T ->
       Z.of_nat (length data) = T /\ idx' = Z.min idx T /\
       forall i, (i < length old)%nat -> (i < Z.to_nat T)%nat -> data !! i = old !! i).
Proof.
  intros HT. unfold resize_data.
  destruct (Z.of_nat (length old) =? T) eqn:E; simpl.
  - apply Z.eqb_eq in E. do 2 eexists. split; [reflexivity|].
    split; [tauto | intros N; contradiction].
  - apply Z.eqb_neq in E.
    set (fresh := repeat (@None rgb) (Z.to_nat T)).
    set (m := Nat.min (length old) (Z.to_nat T)).
    assert (Hfl : length fresh = Z.to_nat T) by apply repeat_length.
    assert (Hloop : (match old with
                     | [] => Some fresh
                     | _ :: _ =>
                         py_for (fun i d => v ← py_getitem old i; py_setitem d i v)
                           (Z.min (Z.of_nat (length old)) T) fresh
                     end) = Some (take m old ++ drop m fresh)).
    { destruct old as [|o os].
      - simpl in m. unfold m. simpl. reflexivity.
      - replace (Z.min (Z.of_nat (length (o :: os))) T) with (Z.of_nat m) by lia.
        apply copy_loop; lia. }
    rewrite Hloop. simpl. do 2 eexists. split; [reflexivity|].
    split; [intros; contradiction|]. intros _.
    assert (Htk : length (take m old) = m) by (rewrite length_take; lia).
    split; [|split].
    + rewrite length_app, Htk, length_drop, Hfl. lia.
    + destruct (T <=? idx) eqn:Ei; [apply Z.leb_le in Ei | apply Z.leb_gt in Ei]; lia.
    + intros i Hi1 Hi2. rewrite lookup_app_l by lia.
      rewrite lookup_take. case_decide; [reflexivity | lia].
Qed.

Lemma grid_capacity_nonneg (a b : Z) : 0 <= Z.max 10 a * Z.max 10 b.
Proof. nia. Qed.

(** The shape of update_grid_size's result. *)
Lemma update_grid_size_result (s : state) :
  exists s', update_grid_size s = Some s' /\
    screen_width s' = screen_width s /\ screen_height s' = screen_height s /\
    current_sound s' = current_sound s /\ last_update s' = last_update s /\
    10 <= grid_cols s' /\ 10 <= grid_rows s' /\
    (Z.of_nat (length (grid_data s)) = grid_cols s' * grid_rows s' ->
       grid_data s' = grid_data s /\ grid_index s' = grid_index s) /\
    (Z.of_nat (length (grid_data s)) <> grid_cols s' * grid_rows s' ->
       Z.of_nat (length (grid_data s')) = grid_cols s' * grid_rows s' /\
       grid_index s' = Z.min (grid_index s) (grid_cols s' * grid_rows s') /\
       forall i, (i < length (grid_data s))%nat ->
         (i < Z.to_nat (grid_cols s' * grid_rows s'))%nat ->
         grid_data s' !! i = grid_data s !! i).
Proof.
  unfold update_grid_size.
  match goal with |- context [resize_data (Z.max 10 ?a * Z.max 10 ?b) ?o ?i] =>
    destruct (resize_data_result (Z.max 10 a * Z.max 10 b) o i (grid_capacity_nonneg a b))
      as [data [idx' [Hr [Heq Hne]]]];
    rewrite Hr; simpl
  end.
  eexists. split; [reflexivity|]. simpl.
  split; [reflexivity|]. split; [reflexivity|]. split; [reflexivity|].
  split; [reflexivity|]. split; [lia|]. split; [lia|].
  split; [exact Heq | exact Hne].
Qed.

Lemma shift_left_length (N : Z) (d d' : list (option rgb)) :
  shift_left N d = Some d' -> length d' = length d.
Proof.
  unfold shift_left. apply (py_for_inv (fun l => length l = length d)); [|reflexivity].
  intros i x y Hx Hb. destruct (py_getitem x (i + 1)) as [v|]; simpl in Hb; [|discriminate].
  apply py_setitem_length in Hb. lia.
Qed.

Lemma update_grid_inv (c : rgb) (s s' : state) :
  grid_inv s -> update_grid c s = Some s' -> grid_inv s'.
Proof.
  intros [Hlen Hidx]. unfold update_grid. destruct c as [[r g] b]. cbv zeta.
  cbn [set_sound grid_cols grid_rows grid_index grid_data].
  destruct (grid_cols s * grid_rows s <=? grid_index s) eqn:E.
  - apply Z.leb_le in E.
    destruct (shift_left _ (grid_data s)) as [d|] eqn:Hs; simpl; [|discriminate].
    destruct (py_setitem d _ _) as [d'|] eqn:Hset; simpl; [|discriminate].
    intros H. injection H as <-.
    apply shift_left_length in Hs. apply py_setitem_length in Hset.
    unfold grid_inv; cbn. lia.
  - apply Z.leb_gt in E.
    destruct (py_setitem (grid_data s) _ _) as [d'|] eqn:Hset; simpl; [|discriminate].
    intros H. injection H as <-. apply py_setitem_length in Hset.
    unfold grid_inv; cbn. lia.
Qed.

Lemma update_grid_size_inv (s s' : state) :
  grid_inv s -> update_grid_size s = Some s' -> grid_inv s'.
Proof.
  intros [Hlen Hidx] H.
  destruct (update_grid_size_result s) as [s1 [Hs1 [_ [_ [_ [_ [Hc [Hr [Heq Hne]]]]]]]]].
  rewrite Hs1 in H. injection H as <-.
  unfold grid_inv.
  destruct (Z.eq_dec (Z.of_nat (length (grid_data s))) (grid_cols s1 * grid_rows s1)) as [E|E].
  - destruct (Heq E) as [-> ->]. lia.
  - destruct (Hne E) as [H1 [H2 _]]. lia.
Qed.

Lemma tick_inv (t : Z) (c : rgb) (s s' : state) :
  grid_inv s -> tick t c s = Some s' -> grid_inv s'.
Proof.
  intros Hinv. unfold tick.
  destruct (update_interval <=? t - last_update s).
  - destruct (update_grid c s) as [s1|] eqn:Hu; simpl; [|discriminate].
    intros H. injection H as <-. apply (update_grid_inv c s s1 Hinv) in Hu. exact Hu.
  - intros H. injection H as <-. exact Hinv.
Qed.

(** ** C1 *)

(** C1: on a full grid (cursor at the capacity [N = cols * rows], [N]
    cells, [N > 0]), update_grid drops cell 0, shifts cells [1..N-1]
    one place left and puts the new color at index [N - 1]; the cursor
    stays at [N]. *)
Theorem update_grid_full_shift (c : rgb) (s : state) :
  0 < grid_cols s * grid_rows s ->
  Z.of_nat (length (grid_data s)) = grid_cols s * grid_rows s ->
  grid_index s = grid_cols s * grid_rows s ->
  exists s', update_grid c s = Some s' /\
    grid_data s' = drop 1 (grid_data s) ++ [Some c] /\
    grid_index s' = grid_cols s * grid_rows s /\
    grid_cols s' = grid_cols s /\ grid_rows s' = grid_rows s.
Proof.
  intros HN Hlen Hidx. unfold update_grid. destruct c as [[r g] b]. cbv zeta.
  cbn [set_sound grid_cols grid_rows grid_index grid_data].
  rewrite Hidx, Z.leb_refl. unfold shift_left.
  set (d := grid_data s) in *. set (n := length d) in *.
  replace (grid_cols s * grid_rows s - 1) with (Z.of_nat (n - 1)) by lia.
  rewrite shift_loop by lia. simpl.
  rewrite take_ge by (rewrite length_drop; lia).
  destruct (lookup_lt_is_Some_2 d (n - 1) ltac:(lia)) as [y Hy].
  rewrite (drop_S d y (n - 1) Hy), (drop_ge d (S (n - 1))) by (unfold n in *; lia).
  assert (Hd1 : length (drop 1 d) = (n - 1)%nat) by (rewrite length_drop; lia).
  rewrite py_setitem_in_range by (rewrite length_app, Hd1; simpl; lia).
  eexists. split; [reflexivity|]. cbn.
  rewrite insert_app_r_alt by (rewrite Nat2Z.id; lia). rewrite Hd1, Nat2Z.id.
  replace (n - 1 - (n - 1))%nat with O by lia.
  repeat split; lia || reflexivity.
Qed.

Lemma update_grid_full_shift_witness :
  (0 < grid_cols small * grid_rows small /\
   Z.of_nat (length (grid_data small)) = grid_cols small * grid_rows small /\
   grid_index small = grid_cols small * grid_rows small) /\
  exists s', update_grid (5, 5, 5) small = Some s' /\
    grid_data s' = drop 1 (grid_data small) ++ [Some (5, 5, 5)] /\
    grid_index s' = grid_cols small * grid_rows small /\
    grid_cols s' = grid_cols small /\ grid_rows s' = grid_rows small.
Proof.
  split; [vm_compute; repeat split; reflexivity|].
  apply update_grid_full_shift; vm_compute; reflexivity.
Defined.

(** ** C6 *)

(** C6: update_grid_size changing the capacity from [A] (cells held) to
    [B = cols * rows] keeps cell [i] for every [i < min A B], leaves [B]
    cells, and sets the cursor to [min cursor B]. *)
Theorem update_grid_size_keeps_cells (s : state) :
  exists s', update_grid_size s = Some s' /\
    let A := length (grid_data s) in
    let B := grid_cols s' * grid_rows s' in
    (Z.of_nat A < B -> forall i, (i < A)%nat -> grid_data s' !! i = grid_data s !! i) /\
    (B < Z.of_nat A -> forall i, (i < Z.to_nat B)%nat -> grid_data s' !! i = grid_data s !! i) /\
    (Z.of_nat A <> B -> Z.of_nat (length (grid_data s')) = B /\
                        grid_index s' = Z.min (grid_index s) B).
Proof.
  destruct (update_grid_size_result s) as [s1 [Hs1 [_ [_ [_ [_ [Hc [Hr [_ Hne]]]]]]]]].
  exists s1. split; [exact Hs1|]. cbv zeta. split; [|split].
  - intros HAB i Hi. destruct (Hne ltac:(lia)) as [_ [_ Hk]]. apply Hk; lia.
  - intros HBA i Hi. destruct (Hne ltac:(lia)) as [_ [_ Hk]]. apply Hk; lia.
  - intros HAB. destruct (Hne HAB) as [H1 [H2 _]]. split; assumption.
Qed.

(** ** C9 *)

(** C9: every reachable state satisfies the grid invariant (the list
    has [cols * rows] cells, [0 <= cursor <= cols * rows]), and
    update_grid, update_grid_size and a display-size change preserve it. *)
Theorem grid_invariant :
  (forall s, reachable s -> grid_inv s) /\
  (forall c s s', grid_inv s -> update_grid c s = Some s' -> grid_inv s') /\
  (forall s s', grid_inv s -> update_grid_size s = Some s' -> grid_inv s') /\
  (forall w h s s', grid_inv s -> resize w h s = Some s' -> grid_inv s').
Proof.
  assert (Hres : forall w h s s', grid_inv s -> resize w h s = Some s' -> grid_inv s').
  { intros w h s s' Hinv. unfold resize. apply update_grid_size_inv. exact Hinv. }
  split; [|split; [exact update_grid_inv | split; [exact update_grid_size_inv | exact Hres]]].
  intros s Hreach. induction Hreach as [w h s Hi | c s s' _ IH Hu | t c s s' _ IH Ht
                                       | w h s s' _ IH Hr].
  - unfold init in Hi. apply update_grid_size_inv in Hi; [exact Hi|].
    unfold grid_inv; cbn. lia.
  - exact (update_grid_inv c s s' IH Hu).
  - exact (tick_inv t c s s' IH Ht).
  - exact (Hres w h s s' IH Hr).
Qed.

(** ** C7 *)

(** C7: a loop iteration at time [t] calls update_grid and sets
    [last_update] to [t] exactly when [t - last_update >= 500]; otherwise
    the state is unchanged. Hence along any run, consecutive triggers
    (and the first one, from the initial [last_update]) are at least
    500 ms apart. *)
Theorem fill_scheduler (t : Z) (c : rgb) (s : state) :
  update_interval = 500 /\
  (500 <= t - last_update s ->
     tick t c s = (s' ← update_grid c s; Some (set_last_update t s'))) /\
  (t - last_update s < 500 -> tick t c s = Some s) /\
  (forall ticks, match run_ticks ticks s with
                 | Some (_, ts) => spaced (last_update s :: ts)
                 | None => True
                 end).
Proof.
  split; [reflexivity|]. split; [|split].
  - intros H. unfold tick. replace (update_interval <=? t - last_update s) with true
      by (symmetry; apply Z.leb_le; exact H). reflexivity.
  - intros H. unfold tick. replace (update_interval <=? t - last_update s) with false
      by (symmetry; apply Z.leb_gt; exact H). reflexivity.
  - intros ticks. clear t c. revert s.
    induction ticks as [|[t c] rest IH]; intros s; simpl; [exact I|].
    destruct (tick t c s) as [s1|] eqn:Ht; simpl; [|exact I].
    specialize (IH s1).
    destruct (run_ticks rest s1) as [[s2 ts]|]; simpl; [|exact I].
    unfold tick in Ht.
    destruct (update_interval <=? t - last_update s) eqn:E.
    + destruct (update_grid c s) as [s0|]; simpl in Ht; [|discriminate].
      injection Ht as <-. cbn in IH. apply Z.leb_le in E. simpl. split; assumption.
    + injection Ht as <-. exact IH.
Qed.

(** * Further properties of the code *)

(** ** Hex strings and the pitch mapping over byte channels *)

Lemma check_all_spec (f : Z -> bool) (lo n : Z) :
  check_all f lo n = true -> forall v, lo <= v < lo + n -> f v = true.
Proof.
  unfold check_all. intros H v Hv.
  rewrite List.forallb_forall in H.
  specialize (H (v - lo)). replace (lo + (v - lo)) with v in H by lia.
  apply H. unfold range. apply in_map_iff. exists (Z.to_nat (v - lo)).
  split; [lia|]. apply in_seq. lia.
Qed.

Lemma fmt_02x_byte (v : Z) : 0 <= v <= 255 -> fmt_02x v = hex_byte v.
Proof.
  intros Hv. apply String.eqb_eq.
  apply (check_all_spec (fun v => String.eqb (fmt_02x v) (hex_byte v)) 0 256);
    [vm_compute; reflexivity | lia].
Qed.

Lemma hex_digit_inj (a b : Z) :
  0 <= a < 16 -> 0 <= b < 16 -> hex_digit a = hex_digit b -> a = b.
Proof.
  intros Ha Hb Hab.
  assert (H : check_all (fun a => check_all (fun b =>
              implb (Ascii.eqb (hex_digit a) (hex_digit b)) (a =? b)) 0 16) 0 16 = true)
    by (vm_compute; reflexivity).
  pose proof (check_all_spec _ 0 16 H a ltac:(lia)) as Ha'.
  pose proof (check_all_spec _ 0 16 Ha' b ltac:(lia)) as Hab'.
  rewrite Hab, Ascii.eqb_refl in Hab'. simpl in Hab'. apply Z.eqb_eq. exact Hab'.
Qed.

Lemma hex_digit_lower (k : Z) : 0 <= k < 16 -> ascii_lower (hex_digit k) = hex_digit k.
Proof.
  intros Hk. apply Ascii.eqb_eq.
  apply (check_all_spec (fun k => Ascii.eqb (ascii_lower (hex_digit k)) (hex_digit k)) 0 16);
    [vm_compute; reflexivity | lia].
Qed.

Lemma hex_byte_inj (v w : Z) :
  0 <= v <= 255 -> 0 <= w <= 255 ->
  hex_digit (v / 16) = hex_digit (w / 16) -> hex_digit (v mod 16) = hex_digit (w mod 16) ->
  v = w.
Proof.
  intros Hv Hw H1 H2.
  apply hex_digit_inj in H1; [|split; [apply Z.div_pos | apply Z.div_lt_upper_bound]; lia
                               |split; [apply Z.div_pos | apply Z.div_lt_upper_bound]; lia].
  apply hex_digit_inj in H2; [|apply Z.mod_pos_bound; lia | apply Z.mod_pos_bound; lia].
  rewrite (Z.div_mod v 16), (Z.div_mod w 16) by lia. rewrite H1, H2. reflexivity.
Qed.

Lemma rgb_to_hex_bytes (r g b : Z) :
  0 <= r <= 255 -> 0 <= g <= 255 -> 0 <= b <= 255 ->
  rgb_to_hex r g b = String "#" (hex_byte r ++ hex_byte g ++ hex_byte b).
Proof. intros. unfold rgb_to_hex. rewrite !fmt_02x_byte by assumption. reflexivity. Qed.

Lemma str_lower_rgb_to_hex (r g b : Z) :
  0 <= r <= 255 -> 0 <= g <= 255 -> 0 <= b <= 255 ->
  str_lower (rgb_to_hex r g b) = rgb_to_hex r g b.
Proof.
  intros Hr Hg Hb. rewrite rgb_to_hex_bytes by assumption.
  assert (Hd : forall v, 0 <= v <= 255 ->
            ascii_lower (hex_digit (v / 16)) = hex_digit (v / 16) /\
            ascii_lower (hex_digit (v mod 16)) = hex_digit (v mod 16)).
  { intros v Hv. split; apply hex_digit_lower;
      [split; [apply Z.div_pos | apply Z.div_lt_upper_bound]; lia | apply Z.mod_pos_bound; lia]. }
  destruct (Hd r Hr) as [Hr1 Hr2]. destruct (Hd g Hg) as [Hg1 Hg2].
  destruct (Hd b Hb) as [Hb1 Hb2].
  unfold hex_byte. simpl. rewrite Hr1, Hr2, Hg1, Hg2, Hb1, Hb2. reflexivity.
Qed.

Lemma rgb_to_hex_inj (r g b r' g' b' : Z) :
  0 <= r <= 255 -> 0 <= g <= 255 -> 0 <= b <= 255 ->
  0 <= r' <= 255 -> 0 <= g' <= 255 -> 0 <= b' <= 255 ->
  rgb_to_hex r g b = rgb_to_hex r' g' b' -> r = r' /\ g = g' /\ b = b'.
Proof.
  intros Hr Hg Hb Hr' Hg' Hb' Heq.
  rewrite !rgb_to_hex_bytes in Heq by assumption.
  unfold hex_byte in Heq. cbn [append] in Heq.
  injection Heq as H1 H2 H3 H4 H5 H6.
  split; [|split]; apply hex_byte_inj; assumption.
Qed.

Lemma color_to_midi_map_keys (k : string) (n : Z) :
  color_to_midi_map !! k = Some n ->
  (k = "#000000" /\ n = 36) \/ (k = "#0a0a0a" /\ n = 38) \/
  (k = "#1a1a1a" /\ n = 40) \/ (k = "#ffffff" /\ n = 60).
Proof.
  unfold color_to_midi_map.
  rewrite !lookup_insert_Some, lookup_empty.
  intros H. destruct H as [[<- <-] | [_ [[<- <-] | [_ [[<- <-] | [_ [[<- <-] | [_ H]]]]]]]];
    [tauto | tauto | tauto | tauto | discriminate].
Qed.

(** For [0 <= v <= 255], [base <= band_note base v <= base + 12]. *)
Lemma band_note_bounds (base v : Z) :
  0 <= v <= 255 -> base <= band_note base v <= base + 12.
Proof.
  intros Hv. unfold band_note.
  assert (H : check_all (fun v => (0 <=? py_int (Qmult (Qdiv (inject_Z v) (inject_Z 255))
                                                        (inject_Z 12))) &&
                                  (py_int (Qmult (Qdiv (inject_Z v) (inject_Z 255))
                                                 (inject_Z 12)) <=? 12)) 0 256 = true)
    by (vm_compute; reflexivity).
  pose proof (check_all_spec _ 0 256 H v ltac:(lia)) as Hc.
  apply andb_true_iff in Hc as [H1 H2]. apply Z.leb_le in H1, H2. lia.
Qed.

(** For a sum [144 <= s <= 180] of the three band notes, the rounded
    mean lies in [48, 60]. *)
Lemma round_mean_bounds (s : Z) :
  144 <= s <= 180 -> 48 <= py_round (Qdiv (inject_Z s) (inject_Z 3)) <= 60.
Proof.
  intros Hs.
  assert (H : check_all (fun s => (48 <=? py_round (Qdiv (inject_Z s) (inject_Z 3))) &&
                                  (py_round (Qdiv (inject_Z s) (inject_Z 3)) <=? 60)) 144 37
              = true) by (vm_compute; reflexivity).
  pose proof (check_all_spec _ 144 37 H s ltac:(lia)) as Hc.
  apply andb_true_iff in Hc as [H1 H2]. apply Z.leb_le in H1, H2. lia.
Qed.

(** [rgb_to_hex] on byte channels: "#" and two lower-case hex digits
    per channel (seven characters), and distinct colors give distinct
    strings. *)
Theorem rgb_to_hex_byte_format (r g b : Z) :
  0 <= r <= 255 -> 0 <= g <= 255 -> 0 <= b <= 255 ->
  rgb_to_hex r g b = String "#" (hex_byte r ++ hex_byte g ++ hex_byte b) /\
  String.length (rgb_to_hex r g b) = 7%nat /\
  str_lower (rgb_to_hex r g b) = rgb_to_hex r g b /\
  (forall r' g' b', 0 <= r' <= 255 -> 0 <= g' <= 255 -> 0 <= b' <= 255 ->
     rgb_to_hex r g b = rgb_to_hex r' g' b' -> (r, g, b) = (r', g', b')).
Proof.
  intros Hr Hg Hb. split; [|split; [|split]].
  - apply rgb_to_hex_bytes; assumption.
  - rewrite rgb_to_hex_bytes by assumption. reflexivity.
  - apply str_lower_rgb_to_hex; assumption.
  - intros r' g' b' Hr' Hg' Hb' Heq.
    destruct (rgb_to_hex_inj r g b r' g' b') as [-> [-> ->]]; auto.
Qed.

Lemma rgb_to_hex_byte_format_witness :
  (0 <= 171 <= 255 /\ 0 <= 205 <= 255 /\ 0 <= 239 <= 255) /\
  rgb_to_hex 171 205 239 = String "#" (hex_byte 171 ++ hex_byte 205 ++ hex_byte 239) /\
  String.length (rgb_to_hex 171 205 239) = 7%nat /\
  str_lower (rgb_to_hex 171 205 239) = rgb_to_hex 171 205 239 /\
  (forall r' g' b', 0 <= r' <= 255 -> 0 <= g' <= 255 -> 0 <= b' <= 255 ->
     rgb_to_hex 171 205 239 = rgb_to_hex r' g' b' -> (171, 205, 239) = (r', g', b')).
Proof. split; [lia | apply (rgb_to_hex_byte_format 171 205 239); lia]. Defined.

(** Over byte channels the dictionary of color_to_midi_note is hit
    exactly by the four reserved colors. *)
Theorem midi_map_hit_iff_reserved (r g b : Z) :
  0 <= r <= 255 -> 0 <= g <= 255 -> 0 <= b <= 255 ->
  is_Some (color_to_midi_map !! str_lower (rgb_to_hex r g b)) <->
  (r, g, b) = (0, 0, 0) \/ (r, g, b) = (10, 10, 10) \/
  (r, g, b) = (26, 26, 26) \/ (r, g, b) = (255, 255, 255).
Proof.
  intros Hr Hg Hb. split.
  - intros [n Hn]. rewrite str_lower_rgb_to_hex in Hn by assumption.
    apply color_to_midi_map_keys in Hn.
    assert (Hk : forall r' g' b', 0 <= r' <= 255 -> 0 <= g' <= 255 -> 0 <= b' <= 255 ->
              rgb_to_hex r g b = rgb_to_hex r' g' b' -> (r, g, b) = (r', g', b')).
    { intros r' g' b' ? ? ? Heq.
      destruct (rgb_to_hex_inj r g b r' g' b') as [-> [-> ->]]; auto. }
    destruct Hn as [[Hs _] | [[Hs _] | [[Hs _] | [Hs _]]]].
    + left. apply Hk; [lia | lia | lia | rewrite Hs; reflexivity].
    + right; left. apply Hk; [lia | lia | lia | rewrite Hs; reflexivity].
    + right; right; left. apply Hk; [lia | lia | lia | rewrite Hs; reflexivity].
    + right; right; right. apply Hk; [lia | lia | lia | rewrite Hs; reflexivity].
  - intros [H | [H | [H | H]]]; injection H as -> -> ->; vm_compute; eexists; reflexivity.
Qed.

Lemma midi_map_hit_iff_reserved_witness :
  (0 <= 10 <= 255) /\
  (is_Some (color_to_midi_map !! str_lower (rgb_to_hex 10 10 10)) <->
   (10, 10, 10) = (0, 0, 0) \/ (10, 10, 10) = (10, 10, 10) \/
   (10, 10, 10) = (26, 26, 26) \/ (10, 10, 10) = (255, 255, 255)).
Proof. split; [lia | apply (midi_map_hit_iff_reserved 10 10 10); lia]. Defined.



(** ** update_grid on a grid with the invariant *)

(** update_grid touches only the cells, the cursor and the sound. *)
Lemma update_grid_frame (c : rgb) (s s' : state) :
  update_grid c s = Some s' ->
  screen_width s' = screen_width s /\ screen_height s' = screen_height s /\
  grid_cols s' = grid_cols s /\ grid_rows s' = grid_rows s /\
  cell_size s' = cell_size s /\ last_update s' = last_update s /\
  current_sound s' = Some (noteFor c).
Proof.
  unfold update_grid. destruct c as [[r g] b]. cbv zeta.
  cbn [set_sound grid_cols grid_rows grid_index grid_data].
  destruct (grid_cols s * grid_rows s <=? grid_index s).
  - destruct (shift_left _ (grid_data s)) as [d|]; simpl; [|discriminate].
    destruct (py_setitem d _ _) as [d'|]; simpl; [|discriminate].
    intros H. injection H as <-. cbn. repeat split.
  - destruct (py_setitem (grid_data s) _ _) as [d'|]; simpl; [|discriminate].
    intros H. injection H as <-. cbn. repeat split.
Qed.

(** Below capacity update_grid writes the color at the cursor and
    advances it; at capacity it shifts the cells left. *)
Lemma update_grid_step (c : rgb) (s : state) :
  grid_inv s -> 0 < grid_cols s * grid_rows s ->
  exists s', update_grid c s = Some s' /\
    (grid_index s < grid_cols s * grid_rows s ->
       grid_data s' = <[Z.to_nat (grid_index s) := Some c]> (grid_data s) /\
       grid_index s' = grid_index s + 1) /\
    (grid_index s = grid_cols s * grid_rows s ->
       grid_data s' = drop 1 (grid_data s) ++ [Some c] /\
       grid_index s' = grid_index s).
Proof.
  intros [Hlen Hidx] HN.
  destruct (Z.lt_ge_cases (grid_index s) (grid_cols s * grid_rows s)) as [Hlt | Hge].
  - unfold update_grid. destruct c as [[r g] b]. cbv zeta.
    cbn [set_sound grid_cols grid_rows grid_index grid_data].
    replace (grid_cols s * grid_rows s <=? grid_index s) with false
      by (symmetry; apply Z.leb_gt; exact Hlt).
    rewrite py_setitem_in_range by lia.
    eexists. split; [reflexivity|]. cbn. split; [split; reflexivity | lia].
  - assert (Heq : grid_index s = grid_cols s * grid_rows s) by lia.
    unfold update_grid. destruct c as [[r g] b]. cbv zeta.
    cbn [set_sound grid_cols grid_rows grid_index grid_data].
    rewrite Heq, Z.leb_refl. unfold shift_left.
    set (d := grid_data s) in *. set (n := length d) in *.
    replace (grid_cols s * grid_rows s - 1) with (Z.of_nat (n - 1)) by lia.
    rewrite shift_loop by lia. simpl.
    rewrite take_ge by (rewrite length_drop; lia).
    destruct (lookup_lt_is_Some_2 d (n - 1) ltac:(lia)) as [y Hy].
    rewrite (drop_S d y (n - 1) Hy), (drop_ge d (S (n - 1))) by (unfold n in *; lia).
    assert (Hd1 : length (drop 1 d) = (n - 1)%nat) by (rewrite length_drop; lia).
    rewrite py_setitem_in_range by (rewrite length_app, Hd1; simpl; lia).
    eexists. split; [reflexivity|]. cbn. split; [lia|].
    intros _. split; [|reflexivity].
    rewrite insert_app_r_alt by (rewrite Nat2Z.id; lia). rewrite Hd1, Nat2Z.id.
    replace (n - 1 - (n - 1))%nat with O by lia. reflexivity.
Qed.

(** Reachable states have at least 10 columns and 10 rows. *)
Lemma reachable_dims (s : state) : reachable s -> 10 <= grid_cols s /\ 10 <= grid_rows s.
Proof.
  induction 1 as [w h s Hi | c s s' _ IH Hu | t c s s' _ IH Ht | w h s s' _ IH Hr].
  - unfold init in Hi.
    destruct (update_grid_size_result (mkState w h 0 0 [] 0 0 None 0))
      as [s1 [Hs1 [_ [_ [_ [_ [Hc [Hrw _]]]]]]]].
    rewrite Hs1 in Hi. injection Hi as <-. lia.
  - destruct (update_grid_frame c s s' Hu) as [_ [_ [-> [-> _]]]]. exact IH.
  - unfold tick in Ht. destruct (update_interval <=? t - last_update s).
    + destruct (update_grid c s) as [s1|] eqn:Hu; simpl in Ht; [|discriminate].
      injection Ht as <-. destruct (update_grid_frame c s s1 Hu) as [_ [_ [Hc [Hrw _]]]].
      cbn. lia.
    + injection Ht as <-. exact IH.
  - unfold resize in Hr.
    destruct (update_grid_size_result (set_screen w h s))
      as [s1 [Hs1 [_ [_ [_ [_ [Hc [Hrw _]]]]]]]].
    rewrite Hs1 in Hr. injection Hr as <-. lia.
Qed.

Lemma reachable_grid_inv (s : state) : reachable s -> grid_inv s.
Proof.
  induction 1 as [w h s Hi | c s s' _ IH Hu | t c s s' _ IH Ht | w h s s' _ IH Hrs].
  - unfold init in Hi. apply update_grid_size_inv in Hi; [exact Hi|].
    unfold grid_inv; cbn. lia.
  - exact (update_grid_inv c s s' IH Hu).
  - exact (tick_inv t c s s' IH Ht).
  - unfold resize in Hrs. exact (update_grid_size_inv (set_screen w h s) s' IH Hrs).
Qed.

(** ** X: update_grid below capacity *)



(** ** X: update_grid never raises in a run *)



(** ** The grid after __init__ and a sequence of update_grid calls *)

Lemma resize_data_nil (T idx : Z) :
  0 < T -> resize_data T [] idx = Some (repeat None (Z.to_nat T), if T <=? idx then T else idx).
Proof.
  intros HT. unfold resize_data. destruct T; [lia | reflexivity | lia].
Qed.

(** __init__ leaves an empty grid: [cols * rows] empty cells, cursor 0. *)
Lemma init_result (w h : Z) :
  exists s0, init w h = Some s0 /\
    10 <= grid_cols s0 /\ 10 <= grid_rows s0 /\
    grid_data s0 = repeat None (Z.to_nat (grid_cols s0 * grid_rows s0)) /\
    grid_index s0 = 0.
Proof.
  unfold init, update_grid_size. cbv zeta.
  cbn [screen_width screen_height grid_data grid_index].
  match goal with |- context [resize_data (Z.max 10 ?a * Z.max 10 ?b) [] 0] =>
    rewrite (resize_data_nil (Z.max 10 a * Z.max 10 b) 0) by lia
  end.
  simpl. eexists. split; [reflexivity|]. cbn.
  split; [lia|]. split; [lia|]. split; [reflexivity|].
  match goal with |- (if ?T <=? 0 then _ else _) = 0 =>
    replace (T <=? 0) with false by (symmetry; apply Z.leb_gt; lia) end.
  reflexivity.
Qed.

Lemma lastn_short {A} (n : nat) (l : list A) : (length l <= n)%nat -> lastn n l = l.
Proof. intros H. unfold lastn. replace (length l - n)%nat with O by lia. reflexivity. Qed.

Lemma length_lastn {A} (n : nat) (l : list A) : length (lastn n l) = Nat.min n (length l).
Proof. unfold lastn. rewrite length_drop. lia. Qed.

Lemma lastn_app_lastn {A} (n : nat) (l m : list A) :
  lastn n (lastn n l ++ m) = lastn n (l ++ m).
Proof.
  unfold lastn. rewrite length_app, length_drop.
  rewrite <- (drop_app_le l m (length l - n)) by lia. rewrite drop_drop.
  rewrite length_app. f_equal. lia.
Qed.

(** The cells hold the colors [xs] in order, then empty cells, and the
    cursor is just past the colors. *)
Definition history (N : nat) (s : state) (xs : list rgb) : Prop :=
  grid_data s = map Some xs ++ repeat None (N - length xs) /\
  grid_index s = Z.of_nat (length xs) /\ (length xs <= N)%nat.

Lemma history_step (N : nat) (c : rgb) (s : state) (xs : list rgb) :
  (0 < N)%nat -> Z.of_nat N = grid_cols s * grid_rows s -> history N s xs ->
  exists s', update_grid c s = Some s' /\
    grid_cols s' = grid_cols s /\ grid_rows s' = grid_rows s /\
    history N s' (lastn N (xs ++ [c])).
Proof.
  intros HN HNs [Hd [Hi Hl]].
  assert (Hinv : grid_inv s).
  { unfold grid_inv. rewrite Hd, Hi, length_app, length_map, repeat_length. lia. }
  destruct (update_grid_step c s Hinv ltac:(lia)) as [s' [Hu [Hap Hfull]]].
  destruct (update_grid_frame c s s' Hu) as [_ [_ [Hc [Hr _]]]].
  exists s'. split; [exact Hu|]. split; [exact Hc|]. split; [exact Hr|].
  destruct (Nat.lt_ge_cases (length xs) N) as [Hlt | Hge].
  - destruct (Hap ltac:(lia)) as [Hd' Hi'].
    rewrite lastn_short by (rewrite length_app; simpl; lia).
    unfold history. rewrite Hd', Hi', Hd, Hi, Nat2Z.id.
    rewrite length_app. simpl.
    rewrite insert_app_r_alt by (rewrite length_map; lia).
    rewrite length_map, Nat.sub_diag.
    destruct (N - length xs)%nat as [|k] eqn:Ek; [lia|]. simpl.
    rewrite map_app, <- app_assoc. simpl.
    replace (N - (length xs + 1))%nat with k by lia.
    split; [reflexivity | split; lia].
  - destruct (Hfull ltac:(lia)) as [Hd' Hi'].
    destruct xs as [|x xs']; [simpl in Hge; lia|]. cbn [length] in Hge, Hl.
    unfold lastn. rewrite length_app. simpl length.
    replace (S (length xs') + 1 - N)%nat with 1%nat by lia.
    unfold history. rewrite Hd', Hi', Hd, Hi. simpl.
    replace (N - S (length xs'))%nat with O by lia. simpl.
    rewrite !drop_0, app_nil_r, length_app. simpl.
    replace (N - (length xs' + 1))%nat with O by lia. simpl.
    rewrite app_nil_r, map_app. split; [reflexivity | split; lia].
Qed.

Lemma history_update_all (N : nat) (cs : list rgb) :
  (0 < N)%nat -> forall s xs, Z.of_nat N = grid_cols s * grid_rows s -> history N s xs ->
  exists s', update_all cs s = Some s' /\
    grid_cols s' = grid_cols s /\ grid_rows s' = grid_rows s /\
    history N s' (lastn N (xs ++ cs)).
Proof.
  intros HN. induction cs as [|c cs IH]; intros s xs HNs Hh.
  - exists s. rewrite app_nil_r, lastn_short by (destruct Hh as [_ [_ Hl]]; exact Hl).
    split; [reflexivity | split; [reflexivity | split; [reflexivity | exact Hh]]].
  - destruct (history_step N c s xs HN HNs Hh) as [s1 [Hu [Hc1 [Hr1 Hh1]]]].
    destruct (IH s1 _ ltac:(rewrite Hc1, Hr1; exact HNs) Hh1) as [s' [Ha [Hc' [Hr' Hh']]]].
    exists s'. simpl. rewrite Hu. simpl. split; [exact Ha|].
    split; [congruence|]. split; [congruence|].
    rewrite lastn_app_lastn, <- app_assoc in Hh'. exact Hh'.
Qed.

(** ** X: the grid after __init__ and [k] update_grid calls *)

(** From __init__ on, after update_grid with the colors [cs] in order,
    the grid holds the last [N = cols * rows] of those colors (all of
    them if fewer), oldest first, followed by empty cells, and the
    cursor is just past them; the dimensions do not change. *)
Theorem init_then_updates (w h : Z) (cs : list rgb) :
  exists s0 s', init w h = Some s0 /\ update_all cs s0 = Some s' /\
    let N := Z.to_nat (grid_cols s0 * grid_rows s0) in
    (100 <= N)%nat /\
    grid_cols s' = grid_cols s0 /\ grid_rows s' = grid_rows s0 /\
    grid_data s' = map Some (lastn N cs) ++ repeat None (N - length (lastn N cs)) /\
    grid_index s' = Z.of_nat (length (lastn N cs)).
Proof.
  destruct (init_result w h) as [s0 [Hi [Hc [Hr [Hd Hx]]]]].
  set (N := Z.to_nat (grid_cols s0 * grid_rows s0)).
  assert (HN : Z.of_nat N = grid_cols s0 * grid_rows s0) by (unfold N; lia).
  assert (Hh : history N s0 []).
  { unfold history. rewrite Hd, Hx. simpl. rewrite Nat.sub_0_r. unfold N.
    split; [reflexivity | split; lia]. }
  destruct (history_update_all N cs ltac:(lia) s0 [] HN Hh) as [s' [Ha [Hc' [Hr' [Hd' [Hx' _]]]]]].
  exists s0, s'. split; [exact Hi|]. split; [exact Ha|]. cbv zeta. fold N.
  split; [lia|]. split; [exact Hc'|]. split; [exact Hr'|]. split; assumption.
Qed.

(** ** update_grid_size applied twice *)

Lemma resize_data_same (T : Z) (old : list (option rgb)) (idx : Z) :
  Z.of_nat (length old) = T -> resize_data T old idx = Some (old, idx).
Proof.
  intros H. unfold resize_data. rewrite H, Z.eqb_refl. reflexivity.
Qed.

(** ** X: update_grid_size is idempotent *)

(** A second update_grid_size call on the same screen changes nothing:
    the dimensions and cell size it computes are those already set, and
    the cell list already has [cols * rows] entries. *)
Theorem update_grid_size_idempotent (s s' : state) :
  update_grid_size s = Some s' -> update_grid_size s' = Some s'.
Proof.
  intros H.
  assert (Hlen : Z.of_nat (length (grid_data s')) = grid_cols s' * grid_rows s').
  { destruct (update_grid_size_result s) as [s1 [Hs1 [_ [_ [_ [_ [_ [_ [Heq Hne]]]]]]]]].
    rewrite Hs1 in H. injection H as <-.
    destruct (Z.eq_dec (Z.of_nat (length (grid_data s))) (grid_cols s1 * grid_rows s1)) as [E|E].
    - destruct (Heq E) as [-> _]. exact E.
    - destruct (Hne E) as [H1 _]. exact H1. }
  revert H Hlen. unfold update_grid_size. cbv zeta.
  destruct (resize_data _ (grid_data s) (grid_index s)) as [[d i]|]; simpl; [|discriminate].
  intros H. injection H as <-. cbn. intros Hlen.
  rewrite (resize_data_same _ d i Hlen). reflexivity.
Qed.

Lemma update_grid_size_idempotent_witness :
  exists s', update_grid_size (mkState 400 300 0 0 [] 0 0 None 0) = Some s' /\
             update_grid_size s' = Some s'.
Proof.
  eexists. split; [vm_compute; reflexivity|].
  apply (update_grid_size_idempotent (mkState 400 300 0 0 [] 0 0 None 0)).
  vm_compute. reflexivity.
Defined.

(** ** Geometry of the grid update_grid_size lays out *)

Lemma inject_Z_pos_ne (c : Z) : 0 < c -> ~ (inject_Z c == 0)%Q.
Proof.
  intros Hc Heq. change 0%Q with (inject_Z 0) in Heq. rewrite inject_Z_injective in Heq. lia.
Qed.

(** Along one dimension of [x] pixels, with [cols] cells and 2-pixel
    gaps, cells no wider than [(x - (cols - 1) * 2) / cols] end within
    the screen. *)
Lemma dim_fits (x cols : Z) (cell : Q) :
  0 < cols ->
  (cell <= Qdiv (inject_Z (x - (cols - 1) * 2)) (inject_Z cols))%Q ->
  (inject_Z (cols - 1) * (cell + inject_Z 2) + cell <= inject_Z x)%Q.
Proof.
  intros Hc Hle.
  assert (Hm : (cell * inject_Z cols <= inject_Z (x - (cols - 1) * 2))%Q).
  { rewrite <- (Qmult_div_r (inject_Z (x - (cols - 1) * 2)) (inject_Z cols))
      by (apply inject_Z_pos_ne; exact Hc).
    rewrite Qmult_comm. apply Qmult_le_l; [|exact Hle].
    change 0%Q with (inject_Z 0). apply inject_Z_lt. exact Hc. }
  rewrite inject_Z_sub, inject_Z_mult, inject_Z_sub in Hm.
  rewrite inject_Z_sub. change (inject_Z 1) with 1%Q in *. change (inject_Z 2) with 2%Q in *.
  Lqa.lra.
Qed.

(** The cell size update_grid_size derives for one dimension of
    [x >= 218] pixels is at least the target size [t], when [t >= 20]
    and [t] is 20 or at most [x / 30]. *)
Lemma dim_cell_at_least_target (x : Z) (t : Q) :
  218 <= x -> (20 <= t)%Q -> (t <= 20 \/ t * 30 <= inject_Z x)%Q ->
  let cols := Z.max 10 (py_int (Qdiv (inject_Z (x + 2)) (Qplus t (inject_Z 2)))) in
  (t <= Qdiv (inject_Z (x - (cols - 1) * 2)) (inject_Z cols))%Q.
Proof.
  intros Hx Ht Ht2 cols.
  assert (Hx' : (218 <= inject_Z x)%Q) by (apply (inject_Z_le 218 x); exact Hx).
  set (q := Qdiv (inject_Z (x + 2)) (Qplus t (inject_Z 2))).
  assert (Ht2p : (0 < t + inject_Z 2)%Q) by (change (inject_Z 2) with 2%Q; Lqa.lra).
  assert (Hq : (0 <= q)%Q).
  { unfold q. apply Qle_shift_div_l; [exact Ht2p|]. rewrite inject_Z_plus.
    change (inject_Z 2) with 2%Q. Lqa.lra. }
  assert (Hpy : py_int q = Qfloor q).
  { unfold py_int. replace (Qle_bool 0 q) with true by (symmetry; apply Qle_bool_iff; exact Hq).
    reflexivity. }
  assert (Hc : 0 < cols) by (unfold cols; lia).
  apply Qle_shift_div_l; [change 0%Q with (inject_Z 0); apply inject_Z_lt; exact Hc|].
  rewrite inject_Z_sub, inject_Z_mult, inject_Z_sub.
  change (inject_Z 1) with 1%Q. change (inject_Z 2) with 2%Q.
  unfold cols. fold q. rewrite Hpy.
  destruct (Z.le_gt_cases 10 (Qfloor q)) as [Hf | Hf].
  - rewrite Z.max_r by exact Hf.
    assert (Hfl : (inject_Z (Qfloor q) * (t + 2) <= inject_Z x + 2)%Q).
    { pose proof (Qfloor_le q) as Hfq.
      assert (Hmul : (inject_Z (Qfloor q) * (t + inject_Z 2) <= q * (t + inject_Z 2))%Q)
        by (apply Qmult_le_compat_r; [exact Hfq | Lqa.lra]).
      assert (Hqe : (q * (t + inject_Z 2) == inject_Z (x + 2))%Q).
      { unfold q. rewrite Qmult_comm, Qmult_div_r; [reflexivity|].
        intros E. rewrite E in Ht2p. discriminate. }
      rewrite Hqe, inject_Z_plus in Hmul. change (inject_Z 2) with 2%Q in Hmul. exact Hmul. }
    Lqa.lra.
  - rewrite Z.max_l by lia. change (inject_Z 10) with 10%Q. Lqa.lra.
Qed.

(** ** X: the grid fits on the screen *)



(** ** X: cells are at least the target size on screens of 218 pixels or more *)

(** On a screen at least 218 pixels wide and high, update_grid_size
    chooses a cell size of at least [min_cell_size = 20] and at least
    [min(width, height) / 30]: the clamp to 10 columns or rows never
    shrinks the cells below the target. *)
Theorem cell_size_at_least_target (s s' : state) :
  update_grid_size s = Some s' ->
  218 <= screen_width s' -> 218 <= screen_height s' ->
  (inject_Z 20 <= cell_size s')%Q /\
  (Qdiv (inject_Z (Z.min (screen_width s') (screen_height s'))) (inject_Z 30) <= cell_size s')%Q.
Proof.
  unfold update_grid_size. cbv zeta.
  destruct (resize_data _ (grid_data s) (grid_index s)) as [[d i]|]; simpl; [|discriminate].
  intros H. injection H as <-. cbn. intros Hw Hh.
  set (m := Qdiv (inject_Z (Z.min (screen_width s) (screen_height s))) (inject_Z 30)).
  set (T := Qmax (inject_Z 20) m).
  assert (HT20 : (20 <= T)%Q) by apply Q.le_max_l.
  assert (HTm : (m <= T)%Q) by apply Q.le_max_r.
  assert (Hm30 : (m * 30 == inject_Z (Z.min (screen_width s) (screen_height s)))%Q).
  { unfold m. rewrite Qmult_comm, Qmult_div_r; [reflexivity | discriminate]. }
  assert (Hcase : forall x, Z.min (screen_width s) (screen_height s) <= x ->
                    (T <= 20 \/ T * 30 <= inject_Z x)%Q).
  { intros x Hx. destruct (Q.max_spec (inject_Z 20) m) as [[_ E] | [_ E]]; fold T in E.
    - right. rewrite E, Hm30. apply inject_Z_le. exact Hx.
    - left. rewrite E. apply Qle_refl. }
  assert (Hcell : (T <= Qmin
      (Qdiv (inject_Z (screen_width s - (Z.max 10 (py_int (Qdiv (inject_Z (screen_width s + 2))
         (Qplus T (inject_Z 2)))) - 1) * 2))
         (inject_Z (Z.max 10 (py_int (Qdiv (inject_Z (screen_width s + 2)) (Qplus T (inject_Z 2)))))))
      (Qdiv (inject_Z (screen_height s - (Z.max 10 (py_int (Qdiv (inject_Z (screen_height s + 2))
         (Qplus T (inject_Z 2)))) - 1) * 2))
         (inject_Z (Z.max 10 (py_int (Qdiv (inject_Z (screen_height s + 2)) (Qplus T (inject_Z 2))))))))%Q).
  { apply Q.min_glb.
    - apply (dim_cell_at_least_target (screen_width s) T); [lia | exact HT20 | apply Hcase; lia].
    - apply (dim_cell_at_least_target (screen_height s) T); [lia | exact HT20 | apply Hcase; lia]. }
  split; [exact (Qle_trans _ _ _ HT20 Hcell) | exact (Qle_trans _ _ _ HTm Hcell)].
Qed.

Lemma cell_size_at_least_target_witness :
  exists s', update_grid_size (mkState 800 600 0 0 [] 0 0 None 0) = Some s' /\
  218 <= screen_width s' /\ 218 <= screen_height s' /\
  (inject_Z 20 <= cell_size s')%Q /\
  (Qdiv (inject_Z (Z.min (screen_width s') (screen_height s'))) (inject_Z 30) <= cell_size s')%Q.
Proof.
  eexists. split; [vm_compute; reflexivity|].
  split; [vm_compute; discriminate|]. split; [vm_compute; discriminate|].
  apply (cell_size_at_least_target (mkState 800 600 0 0 [] 0 0 None 0));
    [vm_compute; reflexivity | vm_compute; discriminate | vm_compute; discriminate].
Defined.

(** ** X: midi_note_to_frequency *)


(** ** X: get_text_color *)

(** get_text_color returns black exactly when the integer weighted sum
    [r * 299 + g * 587 + b * 114] exceeds 128000 (the division by 1000
    loses nothing) and white otherwise; so a color at least as bright in
    every channel as one with black text also gets black text. *)
Theorem get_text_color_threshold :
  (forall r g b,
     (get_text_color (r, g, b) = (0, 0, 0) /\ 128000 < r * 299 + g * 587 + b * 114) \/
     (get_text_color (r, g, b) = (255, 255, 255) /\ r * 299 + g * 587 + b * 114 <= 128000)) /\
  (forall r g b r' g' b', r <= r' -> g <= g' -> b <= b' ->
     get_text_color (r, g, b) = (0, 0, 0) -> get_text_color (r', g', b') = (0, 0, 0)).
Proof.
  assert (Hcase : forall r g b,
     (get_text_color (r, g, b) = (0, 0, 0) /\ 128000 < r * 299 + g * 587 + b * 114) \/
     (get_text_color (r, g, b) = (255, 255, 255) /\ r * 299 + g * 587 + b * 114 <= 128000)).
  { intros r g b. unfold get_text_color.
    destruct (Z_lt_le_dec 128000 (r * 299 + g * 587 + b * 114)) as [Hlt | Hle].
    - left. split; [|exact Hlt].
      rewrite Qltb_true_intro; [reflexivity|].
      apply Qlt_shift_div_l; [reflexivity|].
      rewrite <- inject_Z_mult. apply inject_Z_lt. lia.
    - right. split; [|exact Hle].
      rewrite Qltb_false_intro; [reflexivity|].
      apply Qle_shift_div_r; [reflexivity|].
      rewrite <- inject_Z_mult. apply inject_Z_le. lia. }
  split; [exact Hcase|].
  intros r g b r' g' b' Hr Hg Hb Hblack.
  destruct (Hcase r g b) as [[_ H1] | [H1 _]]; [|rewrite H1 in Hblack; discriminate].
  destruct (Hcase r' g' b') as [[H2 _] | [_ H2]]; [exact H2 | lia].
Qed.

(** ** X: the events of run *)

(** After run's event loop the flag is still true exactly when it was
    true before and no event was a QUIT, an Escape key press or a mouse
    button press (other keys and other events are ignored); once false
    it stays false. *)
Theorem handle_events_running (evs : list event) (running : bool) :
  (handle_events evs running = true <->
   running = true /\
   forall e, In e evs -> e <> QUIT /\ e <> MOUSEBUTTONDOWN /\ e <> KEYDOWN K_ESCAPE) /\
  handle_events evs false = false.
Proof.
  unfold handle_events. split.
  - revert running. induction evs as [|e evs IH]; intros running; simpl.
    + split; [intros H; split; [exact H | intros e []] | intros [H _]; exact H].
    + rewrite IH. split.
      * intros [H Hall]. destruct e as [| k | |]; simpl in H; try discriminate.
        -- destruct (k =? K_ESCAPE) eqn:Ek; [discriminate|].
           apply Z.eqb_neq in Ek. split; [exact H|].
           intros e [<- | He]; [|exact (Hall e He)].
           split; [discriminate | split; [discriminate|]].
           intros E. injection E as E. contradiction.
        -- split; [exact H|]. intros e [<- | He]; [|exact (Hall e He)].
           split; [discriminate | split; discriminate].
      * intros [H Hall]. split; [|intros e' He'; exact (Hall e' (or_intror He'))].
        destruct (Hall e (or_introl eq_refl)) as [Hq [Hm Hk]].
        destruct e as [| k | |]; simpl; try contradiction; [|exact H].
        destruct (k =? K_ESCAPE) eqn:Ek; [|exact H].
        apply Z.eqb_eq in Ek. subst k. contradiction.
  - induction evs as [|e evs IH]; simpl; [reflexivity|].
    replace (handle_event false e) with false by (destruct e; simpl; try destruct (_ =? _); reflexivity).
    exact IH.
Qed.

(** ** X: an iteration of run on a reachable state *)



(** ** Placement of the cells by draw_grid *)

(** With [t >= 20] and [x >= 18] the cell size update_grid_size derives
    for one dimension of [x] pixels is not negative. *)
Lemma dim_cell_nonneg (x : Z) (t : Q) :
  18 <= x -> (20 <= t)%Q ->
  let cols := Z.max 10 (py_int (Qdiv (inject_Z (x + 2)) (Qplus t (inject_Z 2)))) in
  (0 <= Qdiv (inject_Z (x - (cols - 1) * 2)) (inject_Z cols))%Q.
Proof.
  intros Hx Ht cols.
  assert (Hx' : (18 <= inject_Z x)%Q) by (apply (inject_Z_le 18 x); exact Hx).
  set (q := Qdiv (inject_Z (x + 2)) (Qplus t (inject_Z 2))).
  assert (Ht2p : (0 < t + inject_Z 2)%Q) by (change (inject_Z 2) with 2%Q; Lqa.lra).
  assert (Hq : (0 <= q)%Q).
  { unfold q. apply Qle_shift_div_l; [exact Ht2p|]. rewrite inject_Z_plus.
    change (inject_Z 2) with 2%Q. Lqa.lra. }
  assert (Hpy : py_int q = Qfloor q).
  { unfold py_int. replace (Qle_bool 0 q) with true by (symmetry; apply Qle_bool_iff; exact Hq).
    reflexivity. }
  assert (Hc : 0 < cols) by (unfold cols; lia).
  apply Qle_shift_div_l; [change 0%Q with (inject_Z 0); apply inject_Z_lt; exact Hc|].
  rewrite inject_Z_sub, inject_Z_mult, inject_Z_sub.
  change (inject_Z 1) with 1%Q. change (inject_Z 2) with 2%Q.
  unfold cols. fold q. rewrite Hpy.
  destruct (Z.le_gt_cases 10 (Qfloor q)) as [Hf | Hf].
  - rewrite Z.max_r by exact Hf.
    assert (Hfl : (inject_Z (Qfloor q) * (t + 2) <= inject_Z x + 2)%Q).
    { pose proof (Qfloor_le q) as Hfq.
      assert (Hmul : (inject_Z (Qfloor q) * (t + inject_Z 2) <= q * (t + inject_Z 2))%Q)
        by (apply Qmult_le_compat_r; [exact Hfq | Lqa.lra]).
      assert (Hqe : (q * (t + inject_Z 2) == inject_Z (x + 2))%Q).
      { unfold q. rewrite Qmult_comm, Qmult_div_r; [reflexivity|].
        intros E. rewrite E in Ht2p. discriminate. }
      rewrite Hqe, inject_Z_plus in Hmul. change (inject_Z 2) with 2%Q in Hmul. exact Hmul. }
    assert (Hpos : (0 <= inject_Z (Qfloor q) * t)%Q).
    { apply Qmult_le_0_compat; [|Lqa.lra].
      change 0%Q with (inject_Z 0). apply inject_Z_le. lia. }
    Lqa.lra.
  - rewrite Z.max_l by lia. change (inject_Z 10) with 10%Q. Lqa.lra.
Qed.

(** What update_grid_size guarantees of the layout on a screen of at
    least 18 pixels each way. *)
Lemma update_grid_size_layout (s s' : state) :
  update_grid_size s = Some s' ->
  18 <= screen_width s' -> 18 <= screen_height s' ->
  10 <= grid_cols s' /\ 10 <= grid_rows s' /\ (0 <= cell_size s')%Q /\
  (inject_Z (grid_cols s' - 1) * (cell_size s' + inject_Z 2) + cell_size s'
     <= inject_Z (screen_width s'))%Q /\
  (inject_Z (grid_rows s' - 1) * (cell_size s' + inject_Z 2) + cell_size s'
     <= inject_Z (screen_height s'))%Q.
Proof.
  unfold update_grid_size. cbv zeta.
  destruct (resize_data _ (grid_data s) (grid_index s)) as [[d i]|]; simpl; [|discriminate].
  intros H. injection H as <-. cbn. intros Hw Hh.
  set (T := Qmax (inject_Z 20)
              (Qdiv (inject_Z (Z.min (screen_width s) (screen_height s))) (inject_Z 30))).
  assert (HT20 : (20 <= T)%Q) by apply Q.le_max_l.
  split; [lia|]. split; [lia|]. split; [|split].
  - apply Q.min_glb.
    + apply (dim_cell_nonneg (screen_width s) T); [lia | exact HT20].
    + apply (dim_cell_nonneg (screen_height s) T); [lia | exact HT20].
  - apply dim_fits; [lia | apply Q.le_min_l].
  - apply dim_fits; [lia | apply Q.le_min_r].
Qed.

(** Along one axis: position [k] of [n] ends within the span of the
    last one, and a later position starts after an earlier one ends. *)
Lemma axis_within (k n : Z) (cs : Q) :
  (0 <= cs)%Q -> 0 <= k <= n - 1 ->
  (0 <= inject_Z k * (cs + inject_Z 2) /\
   inject_Z k * (cs + inject_Z 2) + cs <= inject_Z (n - 1) * (cs + inject_Z 2) + cs)%Q.
Proof.
  intros Hcs Hk. change (inject_Z 2) with 2%Q. split.
  - apply Qmult_le_0_compat; [change 0%Q with (inject_Z 0); apply inject_Z_le; lia | Lqa.lra].
  - apply Qplus_le_compat; [|apply Qle_refl].
    apply Qmult_le_compat_r; [apply inject_Z_le; lia | Lqa.lra].
Qed.

Lemma axis_apart (k k' : Z) (cs : Q) :
  (0 <= cs)%Q -> k < k' ->
  (inject_Z k * (cs + inject_Z 2) + cs < inject_Z k' * (cs + inject_Z 2))%Q.
Proof.
  intros Hcs Hk. change (inject_Z 2) with 2%Q.
  assert (H : (inject_Z (k + 1) * (cs + 2) <= inject_Z k' * (cs + 2))%Q)
    by (apply Qmult_le_compat_r; [apply inject_Z_le; lia | Lqa.lra]).
  rewrite inject_Z_plus in H. change (inject_Z 1) with 1%Q in H. Lqa.lra.
Qed.

(** ** X: the cells draw_grid draws lie on the screen and do not overlap *)



(** ** X: the buffer generate_tone fills *)

Lemma py_int_R_0 : py_int_R 0 = 0.
Proof. pose proof (py_int_R_bound 0 0 ltac:(simpl; lra)). lia. Qed.

Lemma tone_sample_0 (f : R) (r F : Z) : tone_sample f r F 0 = 0.
Proof.
  unfold tone_sample.
  replace (2 * PI * f * IZR 0 / IZR r)%R with 0%R by (simpl; unfold Rdiv; ring).
  rewrite sin_0.
  replace (0 * IZR max_sample * Q2R (envelope r F 0) * (3 / 10))%R with 0%R by ring.
  exact py_int_R_0.
Qed.


(** ** Filled cells precede the cursor *)

Lemma lookup_repeat_lt {A} (x : A) (n i : nat) : (i < n)%nat -> repeat x n !! i = Some x.
Proof.
  revert i. induction n as [|n IH]; intros i Hi; [lia|].
  destruct i as [|i]; simpl; [reflexivity | apply IH; lia].
Qed.

Lemma drop_repeat {A} (x : A) (n m : nat) : drop m (repeat x n) = repeat x (n - m).
Proof.
  revert n. induction m as [|m IH]; intros n; simpl.
  - rewrite Nat.sub_0_r. reflexivity.
  - destruct n as [|n]; simpl; [reflexivity | apply IH].
Qed.

(** The cells resize_data adds past the old ones are empty. *)
Lemma resize_data_fresh (T : Z) (old : list (option rgb)) (idx : Z)
    (data : list (option rgb)) (idx' : Z) :
  0 <= T -> resize_data T old idx = Some (data, idx') ->
  forall i, (length old <= i)%nat -> (i < Z.to_nat T)%nat -> data !! i = Some None.
Proof.
  intros HT. unfold resize_data.
  destruct (Z.of_nat (length old) =? T) eqn:E; simpl.
  - intros H i Hi1 Hi2. apply Z.eqb_eq in E. lia.
  - set (fresh := repeat (@None rgb) (Z.to_nat T)).
    set (m := Nat.min (length old) (Z.to_nat T)).
    assert (Hloop : (match old with
                     | [] => Some fresh
                     | _ :: _ =>
                         py_for (fun i d => v ← py_getitem old i; py_setitem d i v)
                           (Z.min (Z.of_nat (length old)) T) fresh
                     end) = Some (take m old ++ drop m fresh)).
    { destruct old as [|o os].
      - unfold m. simpl. reflexivity.
      - replace (Z.min (Z.of_nat (length (o :: os))) T) with (Z.of_nat m) by lia.
        apply copy_loop; [lia | unfold fresh; rewrite repeat_length; lia]. }
    rewrite Hloop. simpl. intros H. injection H as <- _. intros i Hi1 Hi2.
    assert (Htk : length (take m old) = m) by (rewrite length_take; lia).
    rewrite lookup_app_r by lia. rewrite Htk. unfold fresh. rewrite drop_repeat.
    apply lookup_repeat_lt. lia.
Qed.

Lemma update_grid_size_fresh (s s' : state) :
  update_grid_size s = Some s' ->
  forall i, (length (grid_data s) <= i)%nat -> (i < length (grid_data s'))%nat ->
  grid_data s' !! i = Some None.
Proof.
  unfold update_grid_size. cbv zeta.
  match goal with |- context [resize_data ?T ?o ?x] =>
    assert (HT : 0 <= T) by apply grid_capacity_nonneg;
    pose proof (resize_data_fresh T o x) as Hf;
    destruct (resize_data_result T o x HT) as [d [j [Hr [Heq Hne]]]];
    rewrite Hr; set (T0 := T) in *
  end.
  simpl. intros H. injection H as <-. cbn. intros i Hi1 Hi2.
  destruct (Z.eq_dec (Z.of_nat (length (grid_data s))) T0) as [E|E].
  - destruct (Heq E) as [-> _]. lia.
  - destruct (Hne E) as [Hlen _]. apply (Hf d j HT Hr i Hi1). lia.
Qed.

(** ** X: the cursor separates the colored cells from the empty ones *)


